(** * MarkedPlugin: Markdown rendering for documentation pages

    A shallow embedding of TypeDoc's [MarkedPlugin] (the [marked] renderer
    component): the highlighting adapter [getHighlighted], the parse-event
    pipeline [parseMarkdown] / [onParseMarkdown], the slugger lookup
    [getSlugger] / [getDefaultSlugger], and the rendering hooks that
    [setupParser] installs on the markdown-it engine (the code-fence
    [highlight] option and the [heading_open], [heading_close] and
    [link_open] rules).

    Strings are [string]s whose characters stand for UTF-16 code units below
    U+0100.  Mutable objects live in an explicit [State]; exceptions are the
    [Throw] results of a small state-and-exception monad. *)

From Stdlib Require Import Ascii String.
From stdpp Require Import base option list strings pretty gmap sets.

(** ** JavaScript string primitives used by the plugin *)

Module JS.

Definition LF : ascii := "010"%char.
Definition CR : ascii := "013"%char.
Definition DQUOTE : ascii := "034"%char.

(** Line terminators, the characters that [.] in a regular expression does
    not match (among code units below U+0100). *)
Definition isLineTerminator (c : ascii) : bool :=
  bool_decide (c = LF) || bool_decide (c = CR).

(** [String.prototype.toLowerCase] on one code unit below U+0100: the ASCII
    capitals and the Latin-1 capitals U+00C0..U+00DE (U+00D7 is the
    multiplication sign) move up by 32. *)
Definition toLowerChar (c : ascii) : ascii :=
  let n := nat_of_ascii c in
  if bool_decide (65 ≤ n ≤ 90) || (bool_decide (192 ≤ n ≤ 222) && negb (bool_decide (n = 215)))
  then ascii_of_nat (n + 32)
  else c.

Fixpoint toLowerCase (s : string) : string :=
  match s with
  | EmptyString => EmptyString
  | String c r => String (toLowerChar c) (toLowerCase r)
  end.

(** Truthiness of a string value: only the empty string is falsy. *)
Definition truthy (s : string) : bool :=
  match s with EmptyString => false | String _ _ => true end.

(** [x || d] for an optional string [x] ([undefined] and [""] are falsy). *)
Definition or_else (x : option string) (d : string) : string :=
  match x with
  | Some s => if truthy s then s else d
  | None => d
  end.

(** The longest prefix that [.+] / [.*] can consume, and what is left. *)
Fixpoint spanDot (s : string) : string * string :=
  match s with
  | EmptyString => (EmptyString, EmptyString)
  | String c r =>
      if isLineTerminator c then (EmptyString, s)
      else let '(m, rest) := spanDot r in (String c m, rest)
  end.

(** [s.startsWith(p)], returning the remainder. *)
Fixpoint stripPrefix (p s : string) : option string :=
  match p, s with
  | EmptyString, _ => Some s
  | String a p', String b s' => if bool_decide (a = b) then stripPrefix p' s' else None
  | String _ _, EmptyString => None
  end.

Definition quoted (s : string) : string :=
  String DQUOTE s +:+ String DQUOTE EmptyString.

End JS.

(** ** Slugger *)

Module Slugger.

(** Modelled from the spec: the [Slugger] class is imported from
    [./default/DefaultTheme], which is not part of the sources at hand.
    Spec 4.1: "lowercase, collapse whitespace runs to single hyphens, strip
    characters unsafe for URL fragments, then resolve collisions by
    appending -1, -2, ... against the instance's running set of
    already-issued slugs, choosing the smallest unused suffix."  The spec
    does not list the unsafe characters, so the predicate is a parameter. *)
Record t := { seen : gset string }.

Definition new : t := {| seen := ∅ |}.

Fixpoint hyphenate (in_run : bool) (s : string) : string :=
  match s with
  | EmptyString => EmptyString
  | String c r =>
      if Ascii.is_space c
      then (if in_run then hyphenate true r else String "-" (hyphenate true r))
      else String c (hyphenate false r)
  end.

Fixpoint strip (unsafe : ascii → bool) (s : string) : string :=
  match s with
  | EmptyString => EmptyString
  | String c r => if unsafe c then strip unsafe r else String c (strip unsafe r)
  end.

Definition serialize (unsafe : ascii → bool) (text : string) : string :=
  strip unsafe (hyphenate false (JS.toLowerCase text)).

Definition suffixed (base : string) (n : nat) : string :=
  base +:+ "-" +:+ pretty n.

(** Search upwards from suffix [n]; [fuel] bounds the number of probes. *)
Fixpoint probe (issued : gset string) (base : string) (n fuel : nat) : option string :=
  match fuel with
  | 0 => None
  | S fuel' =>
      if decide (suffixed base n ∈ issued)
      then probe issued base (S n) fuel'
      else Some (suffixed base n)
  end.

(** One more probe than there are issued slugs always suffices
    ([probe_enough] below), so the fallback is never taken. *)
Definition resolve (issued : gset string) (base : string) : string :=
  if decide (base ∈ issued)
  then default base (probe issued base 1 (S (size issued)))
  else base.

Definition slug (unsafe : ascii → bool) (s : t) (text : string) : string * t :=
  let r := resolve (seen s) (serialize unsafe text) in
  (r, {| seen := {[ r ]} ∪ seen s |}).

(** The slugs issued for a sequence of calls, in call order. *)
Fixpoint slugs (unsafe : ascii → bool) (s : t) (texts : list string) : list string * t :=
  match texts with
  | [] => ([], s)
  | text :: rest =>
      let '(r, s1) := slug unsafe s text in
      let '(rs, s2) := slugs unsafe s1 rest in
      (r :: rs, s2)
  end.

(** [history unsafe h s]: instance [s] is a [new Slugger()] that has served
    exactly the calls [h] (most recent first). *)
Inductive history (unsafe : ascii → bool) : list string → t → Prop :=
| history_new : history unsafe [] new
| history_call h s text :
    history unsafe h s → history unsafe (text :: h) (slug unsafe s text).2.

End Slugger.

Arguments Slugger.slug : simpl never.
Arguments Slugger.resolve : simpl never.

(** ** Data model *)

(** The reflection a page documents; only its identity and the result of
    [getFriendlyFullName()] are used here. *)
Record Reflection := {
  reflectionId : nat;
  getFriendlyFullName : string
}.

Record PageHeading := {
  link : string;
  text : string;
  level : nat
}.

(** [PageEvent]: the page being rendered, with its "On this page" list. *)
Record PageEvent := {
  model : Reflection;
  pageHeadings : list PageHeading
}.

(** [DefaultThemeRenderContext]; [parseMarkdown] reads [urlTo] only. *)
Record RenderContext := {
  urlTo : Reflection → string
}.

(** A markdown-it token. [attrs] is the array of name/value pairs ([null]
    is the empty array); [children] is filled for [inline] tokens. *)
#[warnings="-register-all"]
Inductive Token := mkToken {
  type : string;
  tag : string;
  attrs : list (string * string);
  markup : string;
  content : string;
  info : string;
  children : list Token
}.

(** Messages of [logger.i18n] that the plugin logs. *)
Inductive Warning :=
| custom_theme_does_not_define_getSlugger
| unsupported_highlight_language_0_not_highlighted_in_comment_for_1 (lang doc : string)
| unloaded_language_0_not_highlighted_in_comment_for_1 (lang doc : string).

(** Calls that leave the plugin, in the order they are made. *)
Inductive Effect :=
| Warn (w : Warning)
| IsSupportedLanguage (lang : string)
| IsLoadedLanguage (lang : string)
| Highlight (code lang : string).

(** [this.owner.theme]: a theme either lacks [getSlugger] or, like
    [DefaultTheme], keeps a slugger per reflection. *)
Inductive Theme :=
| CustomTheme
| DefaultTheme (sluggers : gmap nat Slugger.t).

(** The mutable objects the plugin touches: the module-level
    [defaultSlugger], the renderer's theme, and the plugin's own fields. *)
Record State := mkState {
  defaultSlugger : option Slugger.t;
  theme : option Theme;
  page : option PageEvent;
  parser : bool;
  markdownItOptions : gmap string bool;
  renderContext : option RenderContext;
  lastHeaderSlug : string;
  trace : list Effect
}.

(** A reference to a [Slugger] object: the cell of the store it lives in. *)
Inductive SluggerRef :=
| DefaultSluggerRef
| ThemeSluggerRef (reflection : nat).

(** [MarkdownEvent]: [page] is the caller's page reference, which the plugin
    stores and never follows. *)
Record MarkdownEvent := {
  eventPage : nat;
  originalText : string;
  parsedText : string
}.

(** ** State and exceptions *)

Inductive Exn := TypeError.

Inductive Res (A : Type) :=
| Ok (a : A)
| Throw (e : Exn).
Arguments Ok {A} a.
Arguments Throw {A} e.

Definition M (A : Type) : Type := State → Res A * State.

#[global] Instance M_ret : MRet M := λ A a s, (Ok a, s).

#[global] Instance M_bind : MBind M := λ A B f m s,
  match m s with
  | (Ok a, s') => f a s'
  | (Throw e, s') => (Throw e, s')
  end.

Definition throw {A} (e : Exn) : M A := λ s, (Throw e, s).
Definition get : M State := λ s, (Ok s, s).
Definition modify (f : State → State) : M unit := λ s, (Ok tt, f s).

(** [x.member] where [x] may be [undefined]. *)
Definition deref {A} (x : option A) : M A :=
  match x with
  | Some a => mret a
  | None => throw TypeError
  end.

Definition set_defaultSlugger (v : option Slugger.t) (s : State) : State :=
  mkState v (theme s) (page s) (parser s) (markdownItOptions s)
          (renderContext s) (lastHeaderSlug s) (trace s).
Definition set_theme (v : option Theme) (s : State) : State :=
  mkState (defaultSlugger s) v (page s) (parser s) (markdownItOptions s)
          (renderContext s) (lastHeaderSlug s) (trace s).
Definition set_page (v : option PageEvent) (s : State) : State :=
  mkState (defaultSlugger s) (theme s) v (parser s) (markdownItOptions s)
          (renderContext s) (lastHeaderSlug s) (trace s).
Definition set_parser (v : bool) (s : State) : State :=
  mkState (defaultSlugger s) (theme s) (page s) v (markdownItOptions s)
          (renderContext s) (lastHeaderSlug s) (trace s).
Definition set_renderContext (v : option RenderContext) (s : State) : State :=
  mkState (defaultSlugger s) (theme s) (page s) (parser s) (markdownItOptions s)
          v (lastHeaderSlug s) (trace s).
Definition set_lastHeaderSlug (v : string) (s : State) : State :=
  mkState (defaultSlugger s) (theme s) (page s) (parser s) (markdownItOptions s)
          (renderContext s) v (trace s).
Definition set_trace (v : list Effect) (s : State) : State :=
  mkState (defaultSlugger s) (theme s) (page s) (parser s) (markdownItOptions s)
          (renderContext s) (lastHeaderSlug s) v.

Definition emit (e : Effect) : M unit :=
  modify (λ s, set_trace (trace s ++ [e]) s).

(** ** What the plugin imports *)

(** The functions the plugin calls but does not define, and the markdown-it
    engine.  [engineRule] stands for the engine's handling of a token whose
    type the plugin does not override ([rules[type]] when the engine or the
    [markdownItLoader] hook defines one, [renderToken] otherwise). *)
Class Externals := {
  highlight : string → string → string;
  isSupportedLanguage : string → bool;
  isLoadedLanguage : string → bool;
  escapeHtml : string → string;
  getTextContent : string → string;
  renderAnchorIcon : option RenderContext → string → string;
  CommentDisplayPart : Type;
  displayPartsToMarkdown :
    list CommentDisplayPart → (Reflection → string) → bool → string;
  mdParse : string → list Token;
  renderToken : list Token → nat → string;
  engineRule : list Token → nat → string;
  fenceLangName : string → string;
  fragmentUnsafe : ascii → bool
}.

(** ** Token attributes (markdown-it's [Token.attrGet] / [Token.attrSet]) *)

Fixpoint attrsGet (name : string) (l : list (string * string)) : option string :=
  match l with
  | [] => None
  | (n, v) :: l' => if decide (n = name) then Some v else attrsGet name l'
  end.

Fixpoint attrsSet (name value : string) (l : list (string * string))
  : list (string * string) :=
  match l with
  | [] => [(name, value)]
  | (n, v) :: l' =>
      if decide (n = name) then (name, value) :: l'
      else (n, v) :: attrsSet name value l'
  end.

Definition attrGet (name : string) (t : Token) : option string :=
  attrsGet name (attrs t).

Definition attrSet (name value : string) (t : Token) : Token :=
  mkToken (type t) (tag t) (attrsSet name value (attrs t))
          (markup t) (content t) (info t) (children t).

Definition setChildren (ch : list Token) (t : Token) : Token :=
  mkToken (type t) (tag t) (attrs t) (markup t) (content t) (info t) ch.

(** A [text] token, the child of an [inline] token that holds plain text. *)
Definition textToken (content : string) : Token :=
  mkToken "text" "" [] "" content "" [].

(** ** The plugin *)

Section MarkedPlugin.
Context `{Externals}.

(** Calls to [../../utils/highlighter], recorded in the trace. *)
Definition callIsSupportedLanguage (lang : string) : M bool :=
  emit (IsSupportedLanguage lang);; mret (isSupportedLanguage lang).
Definition callIsLoadedLanguage (lang : string) : M bool :=
  emit (IsLoadedLanguage lang);; mret (isLoadedLanguage lang).
Definition callHighlight (code lang : string) : M string :=
  emit (Highlight code lang);; mret (highlight code lang).

(** [logger.warn(...)] *)
Definition warn (w : Warning) : M unit := emit (Warn w).

(** [getDefaultSlugger(logger)] *)
Definition getDefaultSlugger : M SluggerRef :=
  s ← get;
  match defaultSlugger s with
  | None =>
      warn custom_theme_does_not_define_getSlugger;;
      modify (set_defaultSlugger (Some Slugger.new));;
      mret DefaultSluggerRef
  | Some _ => mret DefaultSluggerRef
  end.

(** [this.page?.model.getFriendlyFullName() ?? "(unknown)"] *)
Definition pageName (s : State) : string :=
  match page s with
  | Some p => getFriendlyFullName (model p)
  | None => "(unknown)"
  end.

(** [getHighlighted(text, lang?)] *)
Definition getHighlighted (text : string) (lang : option string) : M string :=
  let lang := JS.or_else lang "typescript" in
  let lang := JS.toLowerCase lang in
  supported ← callIsSupportedLanguage lang;
  if negb supported then
    s ← get;
    warn (unsupported_highlight_language_0_not_highlighted_in_comment_for_1
            lang (pageName s));;
    mret text
  else
    loaded ← callIsLoadedLanguage lang;
    if negb loaded then
      s ← get;
      warn (unloaded_language_0_not_highlighted_in_comment_for_1
              lang (pageName s));;
      mret text
    else callHighlight text lang.

(** Modelled from the spec: [MarkdownEvent] and the renderer's event
    dispatcher ([this.owner.trigger]) are not part of the sources at hand.
    Spec 4.4: the event is "published to all subscribers in registration
    order"; a subscriber may overwrite [parsedText], which is the value it
    leaves behind here. *)
Definition Listener : Type := MarkdownEvent → M string.

Definition newMarkdownEvent (page : nat) (originalText parsedText : string)
  : MarkdownEvent :=
  {| eventPage := page; originalText := originalText; parsedText := parsedText |}.

Definition setParsedText (t : string) (e : MarkdownEvent) : MarkdownEvent :=
  {| eventPage := eventPage e; originalText := originalText e; parsedText := t |}.

Fixpoint trigger (listeners : list Listener) (event : MarkdownEvent)
  : M MarkdownEvent :=
  match listeners with
  | [] => mret event
  | l :: rest => t ← l event; trigger rest (setParsedText t event)
  end.

(** [parseMarkdown(input, page, context)]; [listeners] are the
    [MarkdownEvent.PARSE] subscribers of [this.owner]. *)
Definition parseMarkdown (listeners : list Listener)
    (input : string + list CommentDisplayPart) (page : nat)
    (context : RenderContext) : M string :=
  s ← get;
  let markdown :=
    match input with
    | inl markdown => markdown
    | inr parts =>
        displayPartsToMarkdown parts (urlTo context)
          (default false (markdownItOptions s !! "html"))
    end in
  modify (set_renderContext (Some context));;
  let event := newMarkdownEvent page markdown markdown in
  event ← trigger listeners event;
  modify (set_renderContext None);;
  mret (parsedText event).

(** Modelled from the spec: [DefaultTheme.getSlugger(reflection)] is not
    part of the sources at hand.  Spec 4.1: "one instance is expected per
    page render pass, obtained from the active theme"; the instance of a
    reflection is created when first asked for. *)
Definition themeGetSlugger (sluggers : gmap nat Slugger.t) (r : Reflection)
  : gmap nat Slugger.t :=
  match sluggers !! reflectionId r with
  | Some _ => sluggers
  | None => <[reflectionId r := Slugger.new]> sluggers
  end.

(** [getSlugger()] *)
Definition getSlugger : M SluggerRef :=
  s ← get;
  t ← deref (theme s);
  match t with
  | DefaultTheme sluggers =>
      p ← deref (page s);
      modify (set_theme (Some (DefaultTheme (themeGetSlugger sluggers (model p)))));;
      mret (ThemeSluggerRef (reflectionId (model p)))
  | CustomTheme => getDefaultSlugger
  end.

(** [slugger.slug(content)] on the object that [r] refers to. *)
Definition sluggerSlug (r : SluggerRef) (content : string) : M string :=
  s ← get;
  match r with
  | DefaultSluggerRef =>
      slugger ← deref (defaultSlugger s);
      let '(slug, slugger') := Slugger.slug fragmentUnsafe slugger content in
      modify (set_defaultSlugger (Some slugger'));;
      mret slug
  | ThemeSluggerRef i =>
      t ← deref (theme s);
      match t with
      | DefaultTheme sluggers =>
          slugger ← deref (sluggers !! i);
          let '(slug, slugger') := Slugger.slug fragmentUnsafe slugger content in
          modify (set_theme (Some (DefaultTheme (<[i := slugger']> sluggers))));;
          mret slug
      | CustomTheme => throw TypeError
      end
  end.

(** [code.replace(/\n$/, "")] *)
Fixpoint dropFinalNewline (code : string) : string :=
  match code with
  | EmptyString => EmptyString
  | String c EmptyString => if decide (c = JS.LF) then EmptyString else code
  | String c rest => String c (dropFinalNewline rest)
  end.

Definition newline : string := String JS.LF EmptyString.

(** The [highlight] option that [setupParser] passes to markdown-it. *)
Definition highlightOption (code lang : string) : M string :=
  code ← callHighlight code (if JS.truthy lang then lang else "ts");
  let code := dropFinalNewline code +:+ newline in
  if negb (JS.truthy lang) then
    mret ("<pre><code>" +:+ code +:+ "</code><button>Copy</button></pre>" +:+ newline)
  else
    mret ("<pre><code class=" +:+ JS.quoted (escapeHtml lang) +:+ ">" +:+ code
          +:+ "</code><button type=" +:+ JS.quoted "button" +:+ ">Copy</button></pre>"
          +:+ newline).

(** [rules["heading_open"]] *)
Definition heading_open (tokens : list Token) (idx : nat) : M string :=
  next ← deref (tokens !! (idx + 1));
  token ← deref (tokens !! idx);
  let content := content next in
  let level := String.length (markup token) in
  slugger ← getSlugger;
  slug ← sluggerSlug slugger content;
  modify (set_lastHeaderSlug slug);;
  s ← get;
  p ← deref (page s);
  modify (set_page (Some {| model := model p;
                            pageHeadings := pageHeadings p ++
                              [{| link := "#md:" +:+ slug;
                                  text := getTextContent content;
                                  level := level |}] |}));;
  mret ("<a id=" +:+ JS.quoted ("md:" +:+ slug) +:+ " class=" +:+ JS.quoted "tsd-anchor"
        +:+ "></a><" +:+ tag token +:+ " class=" +:+ JS.quoted "tsd-anchor-link" +:+ ">").

(** [rules["heading_close"]] *)
Definition heading_close (tokens : list Token) (idx : nat) : M string :=
  s ← get;
  let icon := renderAnchorIcon (renderContext s) ("md:" +:+ lastHeaderSlug s) in
  token ← deref (tokens !! idx);
  mret (icon +:+ "</" +:+ tag token +:+ ">").

(** [href.replace(/^#(?:md:)?(.+)/, "#md:$1")]: after the hash the optional
    group first tries to take [md:]; when nothing is left for [(.+)] it
    gives the characters back.  The match ends at the first line
    terminator and what follows it is kept. *)
Definition rewriteAnchor (href : string) : string :=
  match href with
  | String "#" afterHash =>
      let plain :=
        match JS.spanDot afterHash with
        | (EmptyString, _) => href
        | (group, rest) => "#md:" +:+ group +:+ rest
        end in
      match JS.stripPrefix "md:" afterHash with
      | Some afterMd =>
          match JS.spanDot afterMd with
          | (EmptyString, _) => plain
          | (group, rest) => "#md:" +:+ group +:+ rest
          end
      | None => plain
      end
  | _ => href
  end.

(** [rules["link_open"]]; the token is updated in place, so the rule hands
    back the token array as well. *)
Definition link_open (tokens : list Token) (idx : nat) : M (string * list Token) :=
  token ← deref (tokens !! idx);
  let href := rewriteAnchor <$> attrGet "href" token in
  let tokens :=
    match href with
    | Some href =>
        if JS.truthy href then <[idx := attrSet "href" href token]> tokens else tokens
    | None => tokens
    end in
  mret (renderToken tokens idx, tokens).

(** markdown-it's stock [fence] rule: the language name is cut from the
    info string and the [highlight] option is called; its result starts
    with [<pre], so the rule returns it followed by a newline. *)
Definition fence (tokens : list Token) (idx : nat) : M string :=
  token ← deref (tokens !! idx);
  highlighted ← highlightOption (content token) (fenceLangName (info token));
  mret (highlighted +:+ newline).

(** [rules[type](tokens, idx, ...)], or [renderToken] without a rule. *)
Definition applyRule (tokens : list Token) (idx : nat) : M (string * list Token) :=
  token ← deref (tokens !! idx);
  if decide (type token = "heading_open") then
    out ← heading_open tokens idx; mret (out, tokens)
  else if decide (type token = "heading_close") then
    out ← heading_close tokens idx; mret (out, tokens)
  else if decide (type token = "link_open") then
    link_open tokens idx
  else if decide (type token = "fence") then
    out ← fence tokens idx; mret (out, tokens)
  else mret (engineRule tokens idx, tokens).

(** markdown-it's [Renderer.renderInline]: the loop over [i], [n] tokens
    still to go. *)
Fixpoint renderInlineFrom (n i : nat) (tokens : list Token) (result : string)
  : M (string * list Token) :=
  match n with
  | 0 => mret (result, tokens)
  | S n' =>
      '(out, tokens) ← applyRule tokens i;
      renderInlineFrom n' (S i) tokens (result +:+ out)
  end.

Definition renderInline (tokens : list Token) : M (string * list Token) :=
  renderInlineFrom (length tokens) 0 tokens "".

(** markdown-it's [Renderer.render]. *)
Fixpoint renderFrom (n i : nat) (tokens : list Token) (result : string)
  : M (string * list Token) :=
  match n with
  | 0 => mret (result, tokens)
  | S n' =>
      token ← deref (tokens !! i);
      if decide (type token = "inline") then
        '(out, ch) ← renderInline (children token);
        renderFrom n' (S i) (<[i := setChildren ch token]> tokens) (result +:+ out)
      else
        '(out, tokens) ← applyRule tokens i;
        renderFrom n' (S i) tokens (result +:+ out)
  end.

Definition render (tokens : list Token) : M string :=
  '(out, _) ← renderFrom (length tokens) 0 tokens "";
  mret out.

(** [this.parser!.render(src)] *)
Definition parserRender (src : string) : M string :=
  s ← get;
  if parser s then render (mdParse src) else throw TypeError.

(** [onParseMarkdown(event)] *)
Definition onParseMarkdown : Listener :=
  λ event, parserRender (parsedText event).

(** [initialize()]: the plugin subscribes to [MarkdownEvent.PARSE]. *)
Definition initialize (listeners : list Listener) : list Listener :=
  listeners ++ [onParseMarkdown].

(** [setupParser()]: creates the engine and installs the hooks above. *)
Definition setupParser : M unit := modify (set_parser true).

(** [onBeginRenderer(event)] *)
Definition onBeginRenderer : M unit := setupParser.

End MarkedPlugin.

(** ** A small environment for running the plugin *)

Module Sample.

Definition isAlnum (c : ascii) : bool :=
  let n := nat_of_ascii c in
  bool_decide (48 ≤ n ≤ 57) || bool_decide (65 ≤ n ≤ 90) || bool_decide (97 ≤ n ≤ 122).

(** Letters, digits, hyphen and underscore are kept in a slug. *)
Definition unsafe (c : ascii) : bool :=
  negb (isAlnum c || bool_decide (c = "-"%char) || bool_decide (c = "_"%char)).

Fixpoint escape (s : string) : string :=
  match s with
  | EmptyString => EmptyString
  | String c r =>
      (if bool_decide (c = "&"%char) then "&amp;"
       else if bool_decide (c = "<"%char) then "&lt;"
       else if bool_decide (c = ">"%char) then "&gt;"
       else if bool_decide (c = JS.DQUOTE) then "&quot;"
       else String c EmptyString) +:+ escape r
  end.

(** Text outside of tags. *)
Fixpoint textContent (in_tag : bool) (s : string) : string :=
  match s with
  | EmptyString => EmptyString
  | String c r =>
      if in_tag then textContent (negb (bool_decide (c = ">"%char))) r
      else if bool_decide (c = "<"%char) then textContent true r
      else String c (textContent false r)
  end.

Definition supported : list string := ["typescript"; "ts"; "javascript"; "js"; "go"; "rust"].
Definition loaded : list string := ["typescript"; "ts"; "go"].

Fixpoint splitLines (s : string) : list string :=
  match s with
  | EmptyString => [EmptyString]
  | String c r =>
      if bool_decide (c = JS.LF) then EmptyString :: splitLines r
      else match splitLines r with
           | l :: ls => String c l :: ls
           | [] => [String c EmptyString]
           end
  end.

Fixpoint countHashes (s : string) : nat * string :=
  match s with
  | String "#" r => let '(n, rest) := countHashes r in (S n, rest)
  | _ => (0, s)
  end.

Fixpoint hashes (n : nat) : string :=
  match n with 0 => EmptyString | S n' => String "#" (hashes n') end.

Definition headingTokens (n : nat) (content : string) : list Token :=
  [ mkToken "heading_open" ("h" +:+ pretty n) [] (hashes n) "" "" [];
    mkToken "inline" "" [] "" content "" [textToken content];
    mkToken "heading_close" ("h" +:+ pretty n) [] (hashes n) "" "" [] ].

Definition paragraphTokens (content : string) : list Token :=
  [ mkToken "paragraph_open" "p" [] "" "" "" [];
    mkToken "inline" "" [] "" content "" [textToken content];
    mkToken "paragraph_close" "p" [] "" "" "" [] ].

(** ATX headings and one-line paragraphs; blank lines separate blocks. *)
Definition lineTokens (line : string) : list Token :=
  match line with
  | EmptyString => []
  | _ =>
      match countHashes line with
      | (n, String " " content) =>
          if bool_decide (1 ≤ n ≤ 6) then headingTokens n content
          else paragraphTokens line
      | _ => paragraphTokens line
      end
  end.

Definition parse (src : string) : list Token :=
  concat (lineTokens <$> splitLines src).

Fixpoint renderAttrs (l : list (string * string)) : string :=
  match l with
  | [] => EmptyString
  | (n, v) :: l' => " " +:+ n +:+ "=" +:+ JS.quoted (escape v) +:+ renderAttrs l'
  end.

Definition tokenHtml (tokens : list Token) (idx : nat) : string :=
  match tokens !! idx with
  | Some t =>
      if bool_decide (type t = "text") then escape (content t)
      else "<" +:+ tag t +:+ renderAttrs (attrs t) +:+ ">"
  | None => EmptyString
  end.

Fixpoint firstWord (s : string) : string :=
  match s with
  | EmptyString => EmptyString
  | String c r => if Ascii.is_space c then EmptyString else String c (firstWord r)
  end.

Definition externals : Externals := {|
  highlight code lang := "<span>" +:+ escape code +:+ "</span>";
  isSupportedLanguage lang := bool_decide (lang ∈ supported);
  isLoadedLanguage lang := bool_decide (lang ∈ loaded);
  escapeHtml := escape;
  getTextContent := textContent false;
  renderAnchorIcon _ id := "<a href=" +:+ JS.quoted ("#" +:+ id) +:+ "></a>";
  CommentDisplayPart := string;
  displayPartsToMarkdown parts _ _ := foldr String.app EmptyString parts;
  mdParse := parse;
  renderToken := tokenHtml;
  engineRule := tokenHtml;
  fenceLangName := firstWord;
  fragmentUnsafe := unsafe
|}.

Definition reflection : Reflection :=
  {| reflectionId := 7; getFriendlyFullName := "README" |}.

Definition emptyPage : PageEvent :=
  {| model := reflection; pageHeadings := [] |}.

Definition context : RenderContext := {| urlTo := getFriendlyFullName |}.

(** A page about to be rendered, with a theme that has sluggers. *)
Definition start : State :=
  mkState None (Some (DefaultTheme ∅)) (Some emptyPage) true ∅ None "" [].

(** The same with a theme that lacks [getSlugger]. *)
Definition startCustom : State :=
  mkState None (Some CustomTheme) (Some emptyPage) true ∅ None "" [].

Definition linkToken (href : string) : Token :=
  mkToken "link_open" "a" [("href", href)] "" "" "" [].

End Sample.

(** ** Notions used to state the properties *)

(** The warnings among the calls of a trace. *)
Fixpoint warningsOf (tr : list Effect) : list Warning :=
  match tr with
  | [] => []
  | Warn w :: rest => w :: warningsOf rest
  | _ :: rest => warningsOf rest
  end.

(** There is a character for [(.+)] to take. *)
Definition startsText (t : string) : bool :=
  match t with
  | EmptyString => false
  | String c _ => negb (JS.isLineTerminator c)
  end.

(** The slugs a slugger holds after the base slug and the suffixes 1..k have
    been issued. *)
Definition issued_upto (base : string) (k : nat) : gset string :=
  {[ base ]} ∪ list_to_set (Slugger.suffixed base <$> seq 1 k).

(** What a rule or a loop leaves alone as far as headings go. *)
Definition sameHeadingState (s s' : State) : Prop :=
  page s' = page s ∧ theme s' = theme s ∧ defaultSlugger s' = defaultSlugger s.

(** The lowercase ASCII letters. *)
Definition asciiLower (c : ascii) : bool :=
  bool_decide (97 ≤ nat_of_ascii c ≤ 122).

Section notions.
Context `{Externals}.

(** Headings rendered one after the other, as far as slugs go:
    [this.getSlugger().slug(content)] for each content. *)
Fixpoint slugEach (contents : list string) : M (list string) :=
  match contents with
  | [] => mret []
  | content :: rest =>
      slugger ← getSlugger;
      slug ← sluggerSlug slugger content;
      slugs ← slugEach rest;
      mret (slug :: slugs)
  end.

(** A subscriber that computes the new text from the event it is handed. *)
Definition eventListener (f : MarkdownEvent → string) : Listener :=
  λ event, mret (f event).

(** A subscriber that only rewrites the text. *)
Definition textListener (f : string → string) : Listener :=
  λ event, mret (f (parsedText event)).

(** The Markdown source that [parseMarkdown] hands to the subscribers. *)
Definition flattened (input : string + list CommentDisplayPart)
    (context : RenderContext) (s : State) : string :=
  match input with
  | inl markdown => markdown
  | inr parts =>
      displayPartsToMarkdown parts (urlTo context)
        (default false (markdownItOptions s !! "html"))
  end.

(** The slugger that [getSlugger()] hands out in state [s]: the one of the
    current page's reflection with a [DefaultTheme], the shared fallback
    otherwise; a slugger that does not exist yet starts out new. *)
Definition activeSlugger (s : State) : option Slugger.t :=
  match theme s with
  | Some CustomTheme => Some (default Slugger.new (defaultSlugger s))
  | Some (DefaultTheme sluggers) =>
      match page s with
      | Some p => Some (default Slugger.new (sluggers !! reflectionId (model p)))
      | None => None
      end
  | None => None
  end.

(** The headings of a token stream in document order: the content of the
    token after each [heading_open], and the length of its markup. *)
Fixpoint headingsOf (tokens : list Token) : list (string * nat) :=
  match tokens with
  | [] => []
  | token :: rest =>
      if decide (type token = "heading_open") then
        match rest with
        | next :: _ =>
            (content next, String.length (markup token)) :: headingsOf rest
        | [] => []
        end
      else headingsOf rest
  end.

Definition mkHeading (h : string * nat) (slug : string) : PageHeading :=
  {| link := "#md:" +:+ slug; text := getTextContent h.1; level := h.2 |}.

(** One entry per heading, with the slugs that slugger [sl] issues for the
    heading contents in document order. *)
Definition expectedHeadings (sl : Slugger.t) (tokens : list Token) : list PageHeading :=
  zip_with mkHeading (headingsOf tokens)
    (Slugger.slugs fragmentUnsafe sl (headingsOf tokens).*1).1.

(** Token streams as the engine produces them: a [heading_open] is
    followed by the heading's [inline] token, and heading tokens are
    block-level (no [inline] token has one among its children). *)
Fixpoint wellFormed (tokens : list Token) : bool :=
  match tokens with
  | [] => true
  | token :: rest =>
      (if decide (type token = "heading_open") then
         match rest with [] => false | _ :: _ => true end
       else if decide (type token = "inline") then
         forallb (λ c, bool_decide (type c ≠ "heading_open")) (children token)
       else true)
      && wellFormed rest
  end.

(** The tokens of a first-level ATX heading with plain text [content]:
    [heading_open] with markup [#], the [inline] token that holds the
    text, [heading_close]. *)
Definition h1Tokens (content : string) : list Token :=
  [ mkToken "heading_open" "h1" [] "#" "" "" [];
    mkToken "inline" "" [] "" content "" [textToken content];
    mkToken "heading_close" "h1" [] "#" "" "" [] ].

(** The source ["# Title\n\n# Title"]. *)
Definition twoTitles : string :=
  "# Title" +:+ newline +:+ newline +:+ "# Title".

End notions.

(** ** Notions used to state the further properties *)

(** The [highlight] calls among the calls of a trace. *)
Fixpoint highlightsOf (tr : list Effect) : list (string * string) :=
  match tr with
  | [] => []
  | Highlight code lang :: rest => (code, lang) :: highlightsOf rest
  | _ :: rest => highlightsOf rest
  end.

(** What running [m] from state [s] does to the state, whether it returns
    or throws. *)
Definition stepAt {A} (R : State → State → Prop) (m : M A) (s : State) : Prop :=
  ∀ r s', m s = (r, s') → R s s'.

(** The current page stays the same page and its heading list only grows. *)
Definition headingsGrow (s s' : State) : Prop :=
  match page s with
  | None => page s' = None
  | Some p =>
      ∃ more, page s' = Some {| model := model p; pageHeadings := pageHeadings p ++ more |}
  end.

Definition sameThemeKind (s s' : State) : Prop :=
  match theme s with
  | None => theme s' = None
  | Some CustomTheme => theme s' = Some CustomTheme
  | Some (DefaultTheme _) => ∃ sluggers, theme s' = Some (DefaultTheme sluggers)
  end.

(** The outside calls that rendering makes. *)
Definition renderEffect (e : Effect) : bool :=
  match e with
  | Highlight _ _ => true
  | Warn custom_theme_does_not_define_getSlugger => true
  | _ => false
  end.

(** What the rendering rules and loops may do to the state. *)
Definition renderStep (s s' : State) : Prop :=
  parser s' = parser s ∧
  markdownItOptions s' = markdownItOptions s ∧
  renderContext s' = renderContext s ∧
  headingsGrow s s' ∧
  sameThemeKind s s' ∧
  (is_Some (defaultSlugger s) → is_Some (defaultSlugger s')) ∧
  ∃ extra,
    trace s' = trace s ++ extra ∧
    forallb renderEffect extra = true ∧
    (warningsOf extra = [] ∨
     (defaultSlugger s = None ∧ theme s = Some CustomTheme ∧
      is_Some (defaultSlugger s') ∧
      warningsOf extra = [custom_theme_does_not_define_getSlugger])).



(** ** The footer partial ([themes/default/partials/footer.tsx]) *)

Module Footer.

(** What a JSX expression evaluates to: an element with its attributes and
    children, a fragment, a string, the array that [map] returns, or the
    values [false] and [undefined] that [&&] and [?.] leave behind. *)
#[warnings="-register-all"]
Inductive Jsx :=
| JsxElement (tag : string) (props : list (string * string)) (children : list Jsx)
| JsxFragment (children : list Jsx)
| JsxText (text : string)
| JsxArray (items : list Jsx)
| JsxFalse
| JsxUndefined.

(** An entry of [props.legend]. *)
Record LegendItem := {
  name : string;
  classes : list string
}.

(** The fields of the page event that the footer reads:
    [props.settings.hideGenerator] and [props.legend]. *)
Record FooterProps := {
  hideGenerator : bool;
  legend : option (list (list LegendItem))
}.

(** [array.join(separator)] *)
Fixpoint join (separator : string) (l : list string) : string :=
  match l with
  | [] => EmptyString
  | [x] => x
  | x :: rest => x +:+ separator +:+ join separator rest
  end.

Section footer.
(** [classNames] is imported from [../../lib]. *)
Context (classNames : list (string * bool) → string).

Definition legendItem (item : LegendItem) : Jsx :=
  JsxElement "li" [("class", join " " (classes item))]
    [JsxElement "span" [("class", "tsd-kind-icon")] [JsxText (name item)]].

Definition legendGroup (item : list LegendItem) : Jsx :=
  JsxElement "ul" [("class", "tsd-legend")] [JsxArray (legendItem <$> item)].

Definition generator : Jsx :=
  JsxElement "div" [("class", "container tsd-generator")]
    [JsxElement "p" []
       [JsxText "Generated using ";
        JsxElement "a" [("href", "https://typedoc.org/"); ("target", "_blank")]
          [JsxText "TypeDoc"]]].

(** [footer(_ctx)(props)] *)
Definition footer (props : FooterProps) : Jsx :=
  JsxFragment
    [JsxElement "footer"
       [("class", classNames [("with-border-bottom", negb (hideGenerator props))])]
       [JsxElement "div" [("class", "container")]
          [JsxElement "h2" [] [JsxText "Legend"];
           JsxElement "div" [("class", "tsd-legend-group")]
             [match legend props with
              | Some groups => JsxArray (legendGroup <$> groups)
              | None => JsxUndefined
              end]]];
     if negb (hideGenerator props) then generator else JsxFalse].

End footer.

(** The elements with a given tag, in document order. *)
Fixpoint elementsByTag (t : string) (j : Jsx) : list Jsx :=
  let inAll := fix inAll (l : list Jsx) : list Jsx :=
    match l with
    | [] => []
    | c :: rest => elementsByTag t c ++ inAll rest
    end in
  match j with
  | JsxElement tag _ children =>
      (if decide (tag = t) then [j] else []) ++ inAll children
  | JsxFragment children => inAll children
  | JsxArray items => inAll items
  | _ => []
  end.

(** The text of a node, as it is displayed. *)
Fixpoint textOf (j : Jsx) : string :=
  let ofAll := fix ofAll (l : list Jsx) : string :=
    match l with
    | [] => EmptyString
    | c :: rest => textOf c +:+ ofAll rest
    end in
  match j with
  | JsxElement _ _ children => ofAll children
  | JsxFragment children => ofAll children
  | JsxArray items => ofAll items
  | JsxText text => text
  | _ => EmptyString
  end.

Definition propOf (key : string) (j : Jsx) : option string :=
  match j with
  | JsxElement _ props _ => attrsGet key props
  | _ => None
  end.

End Footer.

(** ** Running the monad *)

Create HintDb monad discriminated.
#[global] Hint Unfold callIsSupportedLanguage callIsLoadedLanguage callHighlight
  warn emit get modify throw deref mbind mret M_bind M_ret : monad.

Ltac mrun :=
  repeat first [ progress autounfold with monad | progress cbv beta iota ].

(** * Properties *)


Section string_facts.

Lemma string_app_nil_r (s : string) : s +:+ "" = s.
Proof. induction s as [|c s IH]; [done|]. unfold String.app in *. simpl. by rewrite IH. Qed.

Lemma string_app_cons (c : ascii) (s1 s2 : string) :
  String c s1 +:+ s2 = String c (s1 +:+ s2).
Proof. done. Qed.

End string_facts.

Section slugger_facts.
Import Slugger.
Context (unsafe : ascii → bool).

Lemma suffixed_ne_base base n : suffixed base n ≠ base.
Proof.
  unfold suffixed. intros H.
  rewrite <-(string_app_nil_r base) in H at 2.
  apply (inj (String.app base)) in H. discriminate H.
Qed.

Lemma suffixed_inj base : Inj (=) (=) (suffixed base).
Proof.
  intros n m H. unfold suffixed in H.
  apply (inj (String.app base)) in H.
  apply (inj (String.app "-")) in H.
  by apply (inj pretty) in H.
Qed.

Lemma probe_some issued base n fuel r :
  probe issued base n fuel = Some r →
  (r ∉ issued) ∧ (∃ k, n ≤ k < n + fuel ∧ r = suffixed base k ∧
    (∀ j, n ≤ j < k → suffixed base j ∈ issued)).
Proof.
  revert n. induction fuel as [|fuel IH]; intros n; simpl; [done|].
  case_decide as Hin.
  - intros H. destruct (IH _ H) as (Hr & k & Hk & -> & Hsm).
    split; [done|]. exists k. split; [lia|]. split; [done|].
    intros j Hj. destruct (decide (j = n)) as [->|]; [done|]. apply Hsm. lia.
  - intros [= <-]. split; [done|]. exists n. split; [lia|]. split; [done|].
    intros j Hj. lia.
Qed.

Lemma probe_none issued base n fuel :
  probe issued base n fuel = None →
  ∀ k, n ≤ k < n + fuel → suffixed base k ∈ issued.
Proof.
  revert n. induction fuel as [|fuel IH]; intros n; simpl; [intros; lia|].
  case_decide as Hin; [|done].
  intros H k Hk. destruct (decide (k = n)) as [->|]; [done|].
  apply (IH _ H). lia.
Qed.

(** Pigeonhole: [S (size issued)] distinct candidates cannot all be issued. *)
Lemma probe_enough issued base n :
  is_Some (probe issued base n (S (size issued))).
Proof.
  destruct (probe issued base n (S (size issued))) as [r|] eqn:E; [by eexists|].
  exfalso. pose proof (probe_none _ _ _ _ E) as Hall.
  set (cands := suffixed base <$> seq n (S (size issued))).
  assert (NoDup cands) as Hnd.
  { apply (NoDup_fmap_2 _). apply NoDup_seq. }
  assert (list_to_set cands ⊆ issued) as Hsub.
  { intros x Hx. apply elem_of_list_to_set in Hx.
    apply list_elem_of_fmap in Hx as (k & -> & Hk).
    apply elem_of_seq in Hk. apply Hall. lia. }
  apply subseteq_size in Hsub.
  rewrite size_list_to_set in Hsub by done.
  unfold cands in Hsub. rewrite length_fmap, length_seq in Hsub. lia.
Qed.

Lemma resolve_fresh issued base : resolve issued base ∉ issued.
Proof.
  unfold resolve. case_decide as Hin; [|done].
  destruct (probe_enough issued base 1) as [r Hr]. rewrite Hr. simpl.
  by apply probe_some in Hr as [? _].
Qed.

Lemma slug_fresh s text : (slug unsafe s text).1 ∉ seen s.
Proof. apply resolve_fresh. Qed.

Lemma slug_seen s text :
  seen (slug unsafe s text).2 = {[ (slug unsafe s text).1 ]} ∪ seen s.
Proof. done. Qed.

Lemma slugs_cons s text rest :
  slugs unsafe s (text :: rest) =
  ((slug unsafe s text).1 :: (slugs unsafe (slug unsafe s text).2 rest).1,
   (slugs unsafe (slug unsafe s text).2 rest).2).
Proof. simpl. by destruct (slugs unsafe _ rest). Qed.

Lemma slugs_fresh texts s r : r ∈ (slugs unsafe s texts).1 → r ∉ seen s.
Proof.
  revert s. induction texts as [|text rest IH]; intros s.
  - simpl. by intros ?%elem_of_nil.
  - rewrite slugs_cons. simpl. intros [->|Hr]%elem_of_cons.
    + apply slug_fresh.
    + apply IH in Hr. simpl in Hr. set_solver.
Qed.

Lemma slugs_NoDup texts s : NoDup (slugs unsafe s texts).1.
Proof.
  revert s. induction texts as [|text rest IH]; intros s.
  - simpl. constructor.
  - rewrite slugs_cons. simpl. constructor; [|apply IH].
    intros Hin%slugs_fresh. simpl in Hin. set_solver.
Qed.

Lemma slugs_length texts s : length (slugs unsafe s texts).1 = length texts.
Proof.
  revert s. induction texts as [|text rest IH]; intros s; [done|].
  rewrite slugs_cons. simpl. by rewrite IH.
Qed.

Lemma history_functional h s1 s2 :
  history unsafe h s1 → history unsafe h s2 → s1 = s2.
Proof.
  intros H1. revert s2. induction H1 as [|h s text H1 IH]; intros s2 H2.
  - by inversion H2.
  - inversion H2 as [|h' s' text' H2']; subst. by rewrite (IH _ H2').
Qed.

(** After the base slug and the suffixes 1..k have been issued, the next
    call with the same text issues suffix k+1. *)
Lemma resolve_next issued base k :
  base ∈ issued →
  (∀ j, 1 ≤ j ≤ k → suffixed base j ∈ issued) →
  suffixed base (S k) ∉ issued →
  resolve issued base = suffixed base (S k).
Proof.
  intros Hb Hlow Hnext. unfold resolve. rewrite decide_True by done.
  destruct (probe_enough issued base 1) as [r Hr]. rewrite Hr. simpl.
  apply probe_some in Hr as (Hfresh & m & Hm & -> & Hsm).
  f_equal. destruct (decide (m = S k)) as [|Hne]; [done|]. exfalso.
  destruct (decide (m ≤ k)).
  - apply Hfresh, Hlow. lia.
  - apply Hnext, Hsm. lia.
Qed.

Lemma elem_of_issued_upto base k x :
  x ∈ issued_upto base k ↔ x = base ∨ ∃ j, 1 ≤ j ≤ k ∧ x = suffixed base j.
Proof.
  unfold issued_upto. rewrite elem_of_union, elem_of_singleton, elem_of_list_to_set.
  rewrite list_elem_of_fmap. setoid_rewrite elem_of_seq.
  split.
  - intros [?|(j & ? & ?)]; [by left|]. right. exists j. split; [lia|done].
  - intros [?|(j & ? & ?)]; [by left|]. right. exists j. split; [done|lia].
Qed.

Lemma slug_repeat_step text k s :
  seen s = issued_upto (serialize unsafe text) k →
  (slug unsafe s text).1 = suffixed (serialize unsafe text) (S k) ∧
  seen (slug unsafe s text).2 = issued_upto (serialize unsafe text) (S k).
Proof.
  intros Hs. set (base := serialize unsafe text) in *.
  assert ((slug unsafe s text).1 = suffixed base (S k)) as Hr.
  { unfold slug. simpl. fold base. rewrite Hs. apply resolve_next.
    - apply elem_of_issued_upto. by left.
    - intros j Hj. apply elem_of_issued_upto. right. by exists j.
    - intros [Hb|(j & Hj & Heq)]%elem_of_issued_upto.
      + by apply suffixed_ne_base in Hb.
      + apply suffixed_inj in Heq. lia. }
  split; [done|]. rewrite slug_seen, Hr, Hs.
  apply set_eq. intros x. rewrite elem_of_union, elem_of_singleton, !elem_of_issued_upto.
  split.
  - intros [->|[->|(j & Hj & ->)]]; [right; exists (S k); split; [lia|done]|by left|].
    right. exists j. split; [lia|done].
  - intros [->|(j & Hj & ->)]; [right; by left|].
    destruct (decide (j = S k)) as [->|]; [by left|].
    right. right. exists j. split; [lia|done].
Qed.

Lemma slugs_repeat_from text n k s :
  seen s = issued_upto (serialize unsafe text) k →
  (slugs unsafe s (replicate n text)).1 =
  suffixed (serialize unsafe text) <$> seq (S k) n.
Proof.
  revert k s. induction n as [|n IH]; intros k s Hs; [done|].
  simpl replicate. rewrite slugs_cons. cbn [fst fmap list_fmap seq].
  destruct (slug_repeat_step text k s Hs) as [-> Hs']. f_equal.
  by apply IH.
Qed.

Lemma slugs_repeat text n :
  (slugs unsafe new (replicate (S n) text)).1 =
  serialize unsafe text :: (suffixed (serialize unsafe text) <$> seq 1 n).
Proof.
  simpl replicate. rewrite slugs_cons. cbn [fst].
  assert ((slug unsafe new text).1 = serialize unsafe text) as Hr.
  { unfold slug, resolve. simpl. rewrite decide_False; [done|]. set_solver. }
  rewrite Hr. f_equal. apply (slugs_repeat_from text n 0).
  rewrite slug_seen, Hr. unfold issued_upto. simpl. set_solver.
Qed.

Lemma serialize_Title :
  (∀ c, asciiLower c = true → unsafe c = false) →
  serialize unsafe "Title" = "title".
Proof. intros Hsafe. unfold serialize. simpl. by rewrite !Hsafe. Qed.

(** C2: a slugger's answer is fixed by the calls it has served; asking
    again for the same text gives the base slug and then the suffixes -1,
    -2, ... in turn ("title", "title-1", "title-2" for "Title"); and the
    slugs one instance hands out are pairwise different. *)
Theorem slug_deterministic_increasing_unique :
  (∀ h s1 s2 text,
     history unsafe h s1 → history unsafe h s2 →
     slug unsafe s1 text = slug unsafe s2 text) ∧
  (∀ text n,
     (slugs unsafe new (replicate (S n) text)).1
     = serialize unsafe text :: (suffixed (serialize unsafe text) <$> seq 1 n)) ∧
  ((∀ c, asciiLower c = true → unsafe c = false) →
     (slugs unsafe new ["Title"; "Title"; "Title"]).1 = ["title"; "title-1"; "title-2"]) ∧
  (∀ s texts,
     NoDup (slugs unsafe s texts).1 ∧
     (∀ r, r ∈ (slugs unsafe s texts).1 → r ∉ seen s)).
Proof.
  split; [|split; [|split]].
  - intros h s1 s2 text H1 H2. by rewrite (history_functional h s1 s2 H1 H2).
  - apply slugs_repeat.
  - intros Hsafe. change ["Title"; "Title"; "Title"] with (replicate 3 "Title").
    rewrite slugs_repeat, (serialize_Title Hsafe). reflexivity.
  - intros s texts. split; [apply slugs_NoDup|]. intros r. apply slugs_fresh.
Qed.

End slugger_facts.


Section string_case_facts.

Lemma toLowerChar_idemp c : JS.toLowerChar (JS.toLowerChar c) = JS.toLowerChar c.
Proof. by destruct c as [[] [] [] [] [] [] [] []]. Qed.

Lemma toLowerCase_idemp s : JS.toLowerCase (JS.toLowerCase s) = JS.toLowerCase s.
Proof. induction s as [|c s IH]; [done|]. simpl. by rewrite toLowerChar_idemp, IH. Qed.

Lemma truthy_toLowerCase s : JS.truthy (JS.toLowerCase s) = JS.truthy s.
Proof. by destruct s. Qed.

End string_case_facts.

Section highlighting.
Context `{Externals}.

(** C9: the language tag is lowercased before it is looked up, so a tag
    and its lowercase form give the same result (returned text, state and
    logged calls). *)
Theorem getHighlighted_case_insensitive (text lang : string) (s : State) :
  getHighlighted text (Some lang) s
  = getHighlighted text (Some (JS.toLowerCase lang)) s.
Proof.
  unfold getHighlighted. simpl JS.or_else. rewrite truthy_toLowerCase.
  destruct (JS.truthy lang); [|done].
  by rewrite toLowerCase_idemp.
Qed.

Lemma warningsOf_app tr1 tr2 : warningsOf (tr1 ++ tr2) = warningsOf tr1 ++ warningsOf tr2.
Proof.
  induction tr1 as [|e tr1 IH]; [done|].
  destruct e; simpl; by rewrite IH.
Qed.

(** C4: when the (lowercased, defaulted) language is unsupported, or
    supported but not loaded, [getHighlighted] returns the text as it is and
    logs one warning that carries the language and the page's name, a
    different warning in each case; whatever the language, the call
    returns normally. *)
Theorem getHighlighted_degrades (text : string) (lang : option string) (s : State) :
  let l := JS.toLowerCase (JS.or_else lang "typescript") in
  (isSupportedLanguage l = false →
     ∃ s', getHighlighted text lang s = (Ok text, s') ∧
       warningsOf (trace s') = warningsOf (trace s) ++
         [unsupported_highlight_language_0_not_highlighted_in_comment_for_1 l (pageName s)] ∧
       trace s' = trace s ++
         [IsSupportedLanguage l;
          Warn (unsupported_highlight_language_0_not_highlighted_in_comment_for_1 l (pageName s))]) ∧
  (isSupportedLanguage l = true → isLoadedLanguage l = false →
     ∃ s', getHighlighted text lang s = (Ok text, s') ∧
       warningsOf (trace s') = warningsOf (trace s) ++
         [unloaded_language_0_not_highlighted_in_comment_for_1 l (pageName s)] ∧
       trace s' = trace s ++
         [IsSupportedLanguage l; IsLoadedLanguage l;
          Warn (unloaded_language_0_not_highlighted_in_comment_for_1 l (pageName s))]) ∧
  (∀ doc, unsupported_highlight_language_0_not_highlighted_in_comment_for_1 l doc
          ≠ unloaded_language_0_not_highlighted_in_comment_for_1 l doc) ∧
  (∃ out s', getHighlighted text lang s = (Ok out, s')).
Proof.
  intros l. unfold getHighlighted. fold l. mrun.
  split; [|split; [|split]].
  - intros ->. simpl. eexists. split; [done|]. simpl.
    rewrite <-!app_assoc. simpl. split; [|done].
    by rewrite warningsOf_app.
  - intros -> ->. simpl. eexists. split; [done|]. simpl.
    rewrite <-!app_assoc. simpl. split; [|done].
    by rewrite warningsOf_app.
  - done.
  - destruct (isSupportedLanguage l); simpl; [|by eauto].
    destruct (isLoadedLanguage l); simpl; by eauto.
Qed.

Lemma highlightOption_run code lang s :
  ∃ out, highlightOption code lang s
         = (Ok out,
            set_trace (trace s ++ [Highlight code (if JS.truthy lang then lang else "ts")]) s).
Proof. unfold highlightOption. mrun. destruct (JS.truthy lang); by eexists. Qed.

(** C5: the code-fence hook returns the highlighter's output with one final
    newline removed and one appended, wrapped in [pre]/[code] with a Copy
    button; without a language the [code] tag has no attribute, with a
    language its class is the escaped tag. *)
Theorem highlightOption_wraps (code : string) (s : State) :
  (highlightOption code "" s
   = (Ok ("<pre><code>" +:+ (dropFinalNewline (highlight code "ts") +:+ newline)
          +:+ "</code><button>Copy</button></pre>" +:+ newline),
      set_trace (trace s ++ [Highlight code "ts"]) s)) ∧
  (∀ c r, let lang := String c r in
     highlightOption code lang s
     = (Ok ("<pre><code class=" +:+ JS.quoted (escapeHtml lang) +:+ ">"
            +:+ (dropFinalNewline (highlight code lang) +:+ newline)
            +:+ "</code><button type=" +:+ JS.quoted "button" +:+ ">Copy</button></pre>"
            +:+ newline),
        set_trace (trace s ++ [Highlight code lang]) s)) ∧
  (highlightOption code "go" s
   = (Ok ("<pre><code class=" +:+ JS.quoted (escapeHtml "go") +:+ ">"
          +:+ (dropFinalNewline (highlight code "go") +:+ newline)
          +:+ "</code><button type=" +:+ JS.quoted "button" +:+ ">Copy</button></pre>"
          +:+ newline),
      set_trace (trace s ++ [Highlight code "go"]) s)) ∧
  (∀ h, dropFinalNewline (h +:+ newline) = h) ∧
  (∀ h, (∀ h', h ≠ h' +:+ newline) → dropFinalNewline h = h).
Proof.
  split; [done|]. split; [done|]. split; [done|]. split.
  - intros h. induction h as [|c h IH]; [done|].
    rewrite string_app_cons. simpl. rewrite IH.
    destruct h; done.
  - intros h. induction h as [|c h IH]; [done|]. intros Hne.
    simpl. destruct h as [|c' h].
    + case_decide as Hc; [|done]. subst c. by destruct (Hne "").
    + rewrite IH; [done|]. intros h' Heq. apply (Hne (String c h')).
      by rewrite string_app_cons, Heq.
Qed.

(** C6: the code-fence hook makes exactly one outside call, [highlight] on
    the fence's language (or [ts]), whatever [isSupportedLanguage] and
    [isLoadedLanguage] would say; the stock [fence] rule reaches it with
    the token's content.  [getHighlighted] asks first and does not call
    [highlight] for an unsupported language. *)
Theorem highlightOption_unconditional (code lang text : string) (s : State) :
  (∃ out s', highlightOption code lang s = (Ok out, s') ∧
     trace s' = trace s ++ [Highlight code (if JS.truthy lang then lang else "ts")]) ∧
  (∀ tokens idx token, tokens !! idx = Some token →
     ∃ out s', fence tokens idx s = (Ok out, s') ∧
       trace s' = trace s ++
         [Highlight (content token)
            (if JS.truthy (fenceLangName (info token))
             then fenceLangName (info token) else "ts")]) ∧
  (isSupportedLanguage (JS.toLowerCase lang) = false → JS.truthy lang = true →
     (∃ out s', highlightOption code lang s = (Ok out, s') ∧
        trace s' = trace s ++ [Highlight code lang]) ∧
     (∃ s', getHighlighted text (Some lang) s = (Ok text, s') ∧
        ∀ c l, Highlight c l ∉ drop (length (trace s)) (trace s'))).
Proof.
  assert (∀ code lang, ∃ out s', highlightOption code lang s = (Ok out, s') ∧
     trace s' = trace s ++ [Highlight code (if JS.truthy lang then lang else "ts")]) as Hhook.
  { intros code' lang'. destruct (highlightOption_run code' lang' s) as [out ->]. by eauto. }
  split; [apply Hhook|]. split.
  - intros tokens idx token Htok. unfold fence. rewrite Htok. mrun.
    destruct (Hhook (content token) (fenceLangName (info token))) as (out & s' & -> & Htr).
    simpl. by eauto.
  - intros Hunsup Hlang. split.
    + destruct (Hhook code lang) as (out & s' & Hrun & Htr).
      rewrite Hlang in Htr. by eauto.
    + unfold getHighlighted. simpl JS.or_else. rewrite Hlang. mrun. rewrite Hunsup. simpl.
      eexists. split; [done|]. simpl. intros c l.
      rewrite <-!app_assoc, drop_app_length. simpl.
      rewrite !elem_of_cons, elem_of_nil. by intros [|[|]].
Qed.

End highlighting.

Section links.
Context `{Externals}.

Lemma attrsSet_same name value l :
  attrsGet name l = Some value → attrsSet name value l = l.
Proof.
  induction l as [|[n v] l IH]; [done|]. simpl.
  case_decide as Hn; [by intros [= ->]; subst|].
  intros Hl. by rewrite IH.
Qed.

Lemma attrsGet_set_eq name value l : attrsGet name (attrsSet name value l) = Some value.
Proof.
  induction l as [|[n v] l IH]; simpl; [by rewrite decide_True|].
  case_decide as Hn; simpl; [by rewrite decide_True|]. by rewrite decide_False.
Qed.

Lemma attrsGet_set_ne name other value l :
  other ≠ name → attrsGet other (attrsSet name value l) = attrsGet other l.
Proof.
  intros Hne. induction l as [|[n v] l IH]; simpl; [by rewrite decide_False|].
  case_decide as Hn; simpl.
  - subst n. by rewrite !decide_False.
  - by rewrite IH.
Qed.

Lemma attrSet_same name value token :
  attrGet name token = Some value → attrSet name value token = token.
Proof.
  unfold attrGet, attrSet. intros Hget. rewrite attrsSet_same by done. by destruct token.
Qed.

Lemma spanDot_app t : (JS.spanDot t).1 +:+ (JS.spanDot t).2 = t.
Proof.
  induction t as [|c t IH]; [done|]. simpl.
  destruct (JS.isLineTerminator c); [done|].
  destruct (JS.spanDot t) as [m rest]. simpl in *.
  by rewrite string_app_cons, IH.
Qed.

Lemma spanDot_startsText t :
  (JS.spanDot t).1 = "" ↔ startsText t = false.
Proof.
  destruct t as [|c t]; [done|]. simpl.
  destruct (JS.isLineTerminator c); [done|].
  by destruct (JS.spanDot t).
Qed.

Lemma stripPrefix_app p t : JS.stripPrefix p (p +:+ t) = Some t.
Proof.
  induction p as [|c p IH]; [done|].
  rewrite string_app_cons. simpl. by rewrite bool_decide_eq_true_2.
Qed.

Lemma stripPrefix_Some p t u : JS.stripPrefix p t = Some u → t = p +:+ u.
Proof.
  revert t. induction p as [|c p IH]; intros t; simpl; [by intros [= ->]|].
  destruct t as [|c' t]; [done|].
  case_bool_decide as Hc; [|done]. subst c'.
  intros Hs%IH. by rewrite string_app_cons, Hs.
Qed.

(** What the replacement does once the hash has been read. *)
Lemma rewriteAnchor_hash t :
  rewriteAnchor ("#" +:+ t) =
  match JS.stripPrefix "md:" t with
  | Some u => if startsText u then "#md:" +:+ u
              else if startsText t then "#md:" +:+ t else "#" +:+ t
  | None => if startsText t then "#md:" +:+ t else "#" +:+ t
  end.
Proof.
  assert (match JS.spanDot t with
          | (EmptyString, _) => "#" +:+ t
          | (group, rest) => "#md:" +:+ group +:+ rest
          end = if startsText t then "#md:" +:+ t else "#" +:+ t) as Hplain.
  { pose proof (spanDot_app t) as Happ. pose proof (spanDot_startsText t) as Hst.
    destruct (JS.spanDot t) as [[|c g] rest]; simpl in *.
    - by rewrite (proj1 Hst).
    - destruct (startsText t); [by rewrite Happ|]. by destruct Hst as [_ ?%symmetry]. }
  change ("#" +:+ t) with (String "#" t) at 1. unfold rewriteAnchor.
  change (String "#" t) with ("#" +:+ t). rewrite Hplain.
  destruct (JS.stripPrefix "md:" t) as [u|]; [|done].
  pose proof (spanDot_app u) as Happ. pose proof (spanDot_startsText u) as Hst.
  destruct (JS.spanDot u) as [[|c g] rest]; simpl in *.
  - by rewrite (proj1 Hst).
  - destruct (startsText u); [by rewrite Happ|]. by destruct Hst as [_ ?%symmetry].
Qed.

Lemma rewriteAnchor_other href : (∀ r, href ≠ "#" +:+ r) → rewriteAnchor href = href.
Proof.
  destruct href as [|c r]; [done|]. intros Hne.
  destruct (decide (c = "#"%char)) as [->|Hc]; [by destruct (Hne r)|].
  clear Hne. destruct c as [[] [] [] [] [] [] [] []]; done.
Qed.

Lemma rewriteAnchor_md u :
  startsText u = true → rewriteAnchor ("#md:" +:+ u) = "#md:" +:+ u.
Proof.
  intros Hu. change ("#md:" +:+ u) with ("#" +:+ "md:" +:+ u) at 1.
  rewrite rewriteAnchor_hash, stripPrefix_app. by rewrite Hu.
Qed.

Lemma rewriteAnchor_plain t :
  startsText t = true → (∀ u, t = "md:" +:+ u → startsText u = false) →
  rewriteAnchor ("#" +:+ t) = "#md:" +:+ t.
Proof.
  intros Ht Hmd. rewrite rewriteAnchor_hash, Ht.
  destruct (JS.stripPrefix "md:" t) as [u|] eqn:Hs; [|done].
  by rewrite (Hmd u (stripPrefix_Some _ _ _ Hs)).
Qed.

Lemma rewriteAnchor_falsy href : JS.truthy (rewriteAnchor href) = false → href = "".
Proof.
  destruct href as [|c r]; [done|].
  destruct (decide (c = "#"%char)) as [->|Hc].
  - change (String "#" r) with ("#" +:+ r). rewrite rewriteAnchor_hash.
    repeat case_match; done.
  - rewrite rewriteAnchor_other; [done|]. intros r' [= ? ?]. done.
Qed.

(** The token that [link_open] leaves at [idx]. *)
Lemma link_open_run tokens idx token href s :
  tokens !! idx = Some token → attrGet "href" token = Some href →
  ∃ token',
    link_open tokens idx s
    = (Ok (renderToken (<[idx := token']> tokens) idx, <[idx := token']> tokens), s) ∧
    token' = (if JS.truthy (rewriteAnchor href)
              then attrSet "href" (rewriteAnchor href) token else token) ∧
    attrGet "href" token' = Some (rewriteAnchor href) ∧
    (∀ name, name ≠ "href" → attrGet name token' = attrGet name token).
Proof.
  intros Htok Hhref. unfold link_open. rewrite Htok. mrun. rewrite Hhref. simpl.
  destruct (JS.truthy (rewriteAnchor href)) eqn:Htruthy.
  - eexists. split; [done|]. split; [done|]. unfold attrGet, attrSet. simpl. split.
    + apply attrsGet_set_eq.
    + intros name Hne. by apply attrsGet_set_ne.
  - exists token. rewrite list_insert_id by done. split; [done|]. split; [done|].
    apply rewriteAnchor_falsy in Htruthy. subst href. by split.
Qed.

(** C3: [link_open] turns an href made of a hash, an optional [md:] and
    some text into [#md:] followed by that text, and sets it on the token;
    an href that does not start with a hash leaves the token as it was. *)
Theorem link_open_rewrites_fragment tokens idx token href s :
  tokens !! idx = Some token →
  attrGet "href" token = Some href →
  ∃ token',
    link_open tokens idx s
    = (Ok (renderToken (<[idx := token']> tokens) idx, <[idx := token']> tokens), s) ∧
    (∀ name, name ≠ "href" → attrGet name token' = attrGet name token) ∧
    (∀ t, startsText t = true → href = "#md:" +:+ t →
       attrGet "href" token' = Some ("#md:" +:+ t)) ∧
    (∀ t, startsText t = true → (∀ u, t = "md:" +:+ u → startsText u = false) →
       href = "#" +:+ t → attrGet "href" token' = Some ("#md:" +:+ t)) ∧
    ((∀ r, href ≠ "#" +:+ r) → token' = token) ∧
    (href = "#foo" ∨ href = "#md:foo" → attrGet "href" token' = Some "#md:foo") ∧
    (href = "https://example.com" →
       token' = token ∧ attrGet "href" token' = Some "https://example.com").
Proof.
  intros Htok Hhref.
  destruct (link_open_run tokens idx token href s Htok Hhref)
    as (token' & Hrun & Htoken' & Hget & Hothers).
  assert ((∀ r, href ≠ "#" +:+ r) → token' = token) as Hkeep.
  { intros Hne. rewrite Htoken', (rewriteAnchor_other href Hne).
    destruct (JS.truthy href); [|done]. by apply attrSet_same. }
  exists token'. split; [done|]. split; [done|]. split; [|split; [|split; [|split]]].
  - intros t Ht ->. by rewrite Hget, rewriteAnchor_md.
  - intros t Ht Hmd ->. by rewrite Hget, rewriteAnchor_plain.
  - done.
  - intros [-> | ->]; by rewrite Hget.
  - intros ->. rewrite Hkeep; [done|]. intros r. discriminate.
Qed.

(** C10: an href that is just a hash is left as it is: the pattern needs a
    character after the hash, and the token array is not changed. *)
Theorem link_open_bare_hash tokens idx token s :
  tokens !! idx = Some token →
  attrGet "href" token = Some "#" →
  link_open tokens idx s = (Ok (renderToken tokens idx, tokens), s) ∧
  rewriteAnchor "#" = "#".
Proof.
  intros Htok Hhref.
  destruct (link_open_run tokens idx token "#" s Htok Hhref)
    as (token' & Hrun & Htoken' & _).
  simpl in Htoken'. rewrite (attrSet_same _ _ _ Hhref) in Htoken'. subst token'.
  by rewrite list_insert_id in Hrun.
Qed.

End links.

Section fallback_slugger.
Context `{Externals}.

Lemma set_defaultSlugger_id s sl : defaultSlugger s = Some sl → set_defaultSlugger (Some sl) s = s.
Proof. destruct s. simpl. by intros ->. Qed.

Lemma getSlugger_custom_first s :
  theme s = Some CustomTheme → defaultSlugger s = None →
  getSlugger s
  = (Ok DefaultSluggerRef,
     set_defaultSlugger (Some Slugger.new)
       (set_trace (trace s ++ [Warn custom_theme_does_not_define_getSlugger]) s)).
Proof. intros Ht Hd. unfold getSlugger, getDefaultSlugger. mrun. by rewrite Ht, Hd. Qed.

Lemma getSlugger_custom_later s sl :
  theme s = Some CustomTheme → defaultSlugger s = Some sl →
  getSlugger s = (Ok DefaultSluggerRef, s).
Proof. intros Ht Hd. unfold getSlugger, getDefaultSlugger. mrun. by rewrite Ht, Hd. Qed.

Lemma sluggerSlug_default s sl content :
  defaultSlugger s = Some sl →
  sluggerSlug DefaultSluggerRef content s
  = (Ok (Slugger.slug fragmentUnsafe sl content).1,
     set_defaultSlugger (Some (Slugger.slug fragmentUnsafe sl content).2) s).
Proof. intros Hd. unfold sluggerSlug. mrun. by rewrite Hd. Qed.

Lemma slugEach_custom contents s sl :
  theme s = Some CustomTheme → defaultSlugger s = Some sl →
  slugEach contents s
  = (Ok (Slugger.slugs fragmentUnsafe sl contents).1,
     set_defaultSlugger (Some (Slugger.slugs fragmentUnsafe sl contents).2) s).
Proof.
  revert s sl. induction contents as [|content rest IH]; intros s sl Ht Hd.
  - simpl. by rewrite set_defaultSlugger_id.
  - cbn [slugEach]. mrun.
    rewrite (getSlugger_custom_later s sl Ht Hd), (sluggerSlug_default s sl content Hd).
    rewrite (IH _ (Slugger.slug fragmentUnsafe sl content).2); [|done..].
    by rewrite slugs_cons.
Qed.

(** C7: with a theme that has no [getSlugger], the first [getSlugger()]
    call creates the shared slugger and logs the warning; every later call
    returns the same slugger and changes nothing, so any number of headings
    log the warning once and draw their slugs from one instance. *)
Theorem getSlugger_fallback_warns_once s :
  theme s = Some CustomTheme →
  (defaultSlugger s = None →
     getSlugger s
     = (Ok DefaultSluggerRef,
        set_defaultSlugger (Some Slugger.new)
          (set_trace (trace s ++ [Warn custom_theme_does_not_define_getSlugger]) s))) ∧
  (∀ sl, defaultSlugger s = Some sl → getSlugger s = (Ok DefaultSluggerRef, s)) ∧
  (∀ content rest, defaultSlugger s = None →
     ∃ s', slugEach (content :: rest) s
           = (Ok (Slugger.slugs fragmentUnsafe Slugger.new (content :: rest)).1, s') ∧
       trace s' = trace s ++ [Warn custom_theme_does_not_define_getSlugger]).
Proof.
  intros Ht. split; [by apply getSlugger_custom_first|].
  split; [intros sl; by apply getSlugger_custom_later|].
  intros content rest Hd. cbn [slugEach]. mrun.
  rewrite (getSlugger_custom_first s Ht Hd).
  rewrite (sluggerSlug_default _ Slugger.new content); [|done].
  erewrite slugEach_custom; [|done..].
  rewrite slugs_cons. eexists. split; [done|]. done.
Qed.

End fallback_slugger.

Section pipeline.
Context `{Externals}.

Lemma trigger_app ls1 ls2 event s :
  trigger (ls1 ++ ls2) event s
  = (event1 ← trigger ls1 event; trigger ls2 event1) s.
Proof.
  revert event s. induction ls1 as [|l ls1 IH]; intros event s; [done|].
  cbn [trigger app]. mrun. destruct (l event s) as [[t|e] s1]; [|done].
  rewrite IH. by mrun.
Qed.

Lemma trigger_originalText ls event s event' s' :
  trigger ls event s = (Ok event', s') →
  originalText event' = originalText event ∧ eventPage event' = eventPage event.
Proof.
  revert event s. induction ls as [|l ls IH]; intros event s.
  - by intros [= -> _].
  - cbn [trigger]. mrun. destruct (l event s) as [[t|e] s1]; [|done].
    intros Hrun. by apply IH in Hrun.
Qed.

Lemma trigger_textListeners fs event s :
  trigger (textListener <$> fs) event s
  = (Ok (setParsedText (foldl (λ t f, f t) (parsedText event) fs) event), s).
Proof.
  revert event. induction fs as [|f fs IH]; intros event.
  - simpl. by destruct event.
  - cbn [fmap list_fmap trigger]. unfold mbind, M_bind.
    change (textListener f event s) with (Ok (f (parsedText event)), s).
    cbv beta iota. by rewrite IH.
Qed.

(** C8: the event that [parseMarkdown] publishes starts with [parsedText]
    and [originalText] both equal to the flattened source (that is what the
    first subscriber is handed); the subscribers run in the order of the
    list, each on the text its predecessor left; and the value returned is
    the [parsedText] left by the last one. *)
Theorem parseMarkdown_returns_final_parsedText listeners input page context s :
  let markdown := flattened input context s in
  (∀ f,
     parseMarkdown [eventListener f] input page context s
     = (Ok (f {| eventPage := page; originalText := markdown; parsedText := markdown |}),
        set_renderContext None (set_renderContext (Some context) s))) ∧
  (∀ event' s',
     trigger listeners
       {| eventPage := page; originalText := markdown; parsedText := markdown |}
       (set_renderContext (Some context) s) = (Ok event', s') →
     parseMarkdown listeners input page context s
     = (Ok (parsedText event'), set_renderContext None s') ∧
     originalText event' = markdown) ∧
  (∀ ls1 ls2 ev st,
     trigger (ls1 ++ ls2) ev st = (ev1 ← trigger ls1 ev; trigger ls2 ev1) st) ∧
  (∀ fs,
     parseMarkdown (textListener <$> fs) input page context s
     = (Ok (foldl (λ t f, f t) markdown fs),
        set_renderContext None (set_renderContext (Some context) s))).
Proof.
  intros markdown. split; [|split; [|split]].
  - intros f. unfold parseMarkdown. by mrun.
  - intros event' s' Hrun. split.
    + unfold parseMarkdown. mrun. fold (flattened input context s).
      fold markdown. unfold newMarkdownEvent. by rewrite Hrun.
    + by apply trigger_originalText in Hrun as [-> _].
  - apply trigger_app.
  - intros fs. unfold parseMarkdown. mrun. fold (flattened input context s).
    fold markdown. by rewrite trigger_textListeners.
Qed.

End pipeline.

Section headings.
Context `{Externals}.

Lemma sameHeadingState_refl s : sameHeadingState s s.
Proof. done. Qed.

Lemma sameHeadingState_trans s1 s2 s3 :
  sameHeadingState s1 s2 → sameHeadingState s2 s3 → sameHeadingState s1 s3.
Proof. intros (? & ? & ?) (? & ? & ?). repeat split; congruence. Qed.

Lemma sameHeadingState_active s s' :
  sameHeadingState s s' → activeSlugger s' = activeSlugger s.
Proof. intros (Hp & Ht & Hd). unfold activeSlugger. by rewrite Hp, Ht, Hd. Qed.

(** [this.getSlugger().slug(content)] *)
Lemma getSlugger_slug_run s p sl content :
  page s = Some p → activeSlugger s = Some sl →
  ∃ s',
    (slugger ← getSlugger; sluggerSlug slugger content) s
    = (Ok (Slugger.slug fragmentUnsafe sl content).1, s') ∧
    page s' = Some p ∧
    activeSlugger s' = Some (Slugger.slug fragmentUnsafe sl content).2 ∧
    lastHeaderSlug s' = lastHeaderSlug s.
Proof.
  intros Hpage Hactive.
  unfold activeSlugger in Hactive. rewrite Hpage in Hactive.
  unfold getSlugger, getDefaultSlugger, sluggerSlug, activeSlugger. mrun.
  destruct s as [ds th pg ps opts rc lhs tr]. cbn in Hpage, Hactive. subst pg.
  destruct th as [[|sluggers]|]; [| |done].
  - destruct ds as [sl0|]; cbn in Hactive; injection Hactive as <-; cbn;
      destruct (Slugger.slug fragmentUnsafe _ content) as [r sl']; cbn;
      by eexists.
  - injection Hactive as <-. cbn. unfold themeGetSlugger.
    destruct (sluggers !! reflectionId (model p)) as [sl0|] eqn:Hlook; cbn;
      rewrite ?Hlook, ?lookup_insert_eq; cbn;
      destruct (Slugger.slug fragmentUnsafe _ content) as [r sl']; cbn;
      eexists; (split; [done|]); cbn; by rewrite lookup_insert_eq.
Qed.

Lemma heading_open_run tokens idx token next s p sl :
  tokens !! idx = Some token → tokens !! (idx + 1) = Some next →
  page s = Some p → activeSlugger s = Some sl →
  let slug := (Slugger.slug fragmentUnsafe sl (content next)).1 in
  ∃ out s',
    heading_open tokens idx s = (Ok out, s') ∧
    page s' = Some {| model := model p;
                      pageHeadings := pageHeadings p ++
                        [mkHeading (content next, String.length (markup token)) slug] |} ∧
    activeSlugger s' = Some (Slugger.slug fragmentUnsafe sl (content next)).2 ∧
    lastHeaderSlug s' = slug ∧
    out = "<a id=" +:+ JS.quoted ("md:" +:+ slug) +:+ " class=" +:+ JS.quoted "tsd-anchor"
          +:+ "></a><" +:+ tag token +:+ " class=" +:+ JS.quoted "tsd-anchor-link" +:+ ">".
Proof.
  intros Htok Hnext Hpage Hactive slug.
  destruct (getSlugger_slug_run s p sl (content next) Hpage Hactive)
    as (s1 & Hrun & Hpage1 & Hactive1 & _).
  unfold heading_open. rewrite Htok, Hnext. mrun.
  unfold mbind, M_bind in Hrun.
  destruct (getSlugger s) as [[r|e] s0]; [|done].
  rewrite Hrun. fold slug. cbn [page set_lastHeaderSlug]. rewrite Hpage1.
  do 2 eexists. split; [done|].
  destruct s1 as [ds th pg ps opts rc lhs tr]. cbn in Hpage1. subst pg.
  unfold activeSlugger in *. cbn in *.
  repeat split; done.
Qed.

Lemma link_open_total tokens idx token s :
  tokens !! idx = Some token →
  ∃ token',
    link_open tokens idx s
    = (Ok (renderToken (<[idx := token']> tokens) idx, <[idx := token']> tokens), s) ∧
    type token' = type token.
Proof.
  intros Htok. unfold link_open. rewrite Htok. mrun.
  destruct (attrGet "href" token) as [href|]; cbn [fmap option_fmap option_map].
  - destruct (JS.truthy (rewriteAnchor href)).
    + by eexists.
    + exists token. by rewrite list_insert_id.
  - exists token. by rewrite list_insert_id.
Qed.

Lemma applyRule_other tokens idx token s :
  tokens !! idx = Some token → type token ≠ "heading_open" →
  ∃ out token' s',
    applyRule tokens idx s = (Ok (out, <[idx := token']> tokens), s') ∧
    type token' = type token ∧ sameHeadingState s s'.
Proof.
  intros Htok Htype. unfold applyRule. rewrite Htok. mrun.
  rewrite decide_False by done.
  destruct (decide (type token = "heading_close")).
  { unfold heading_close. rewrite Htok. mrun.
    exists (renderAnchorIcon (renderContext s) ("md:" +:+ lastHeaderSlug s)
            +:+ "</" +:+ tag token +:+ ">"), token, s.
    by rewrite list_insert_id. }
  destruct (decide (type token = "link_open")).
  { destruct (link_open_total tokens idx token s Htok) as (token' & -> & Htype').
    by exists (renderToken (<[idx:=token']> tokens) idx), token', s. }
  destruct (decide (type token = "fence")).
  { unfold fence. rewrite Htok. mrun.
    destruct (highlightOption_run (content token) (fenceLangName (info token)) s)
      as [out ->].
    eexists (out +:+ newline), token, _.
    by rewrite list_insert_id. }
  exists (engineRule tokens idx), token, s. by rewrite list_insert_id.
Qed.

Lemma renderInlineFrom_run n i tokens result s :
  i + n = length tokens →
  Forall (λ c, type c ≠ "heading_open") tokens →
  ∃ out tokens' s',
    renderInlineFrom n i tokens result s = (Ok (out, tokens'), s') ∧
    sameHeadingState s s'.
Proof.
  revert i tokens result s.
  induction n as [|n IH]; intros i tokens result s Hlen Hall.
  - by exists result, tokens, s.
  - destruct (lookup_lt_is_Some_2 tokens i) as [token Htok]; [lia|].
    assert (type token ≠ "heading_open") as Htype.
    { by apply (Forall_lookup_1 _ _ _ _ Hall Htok). }
    destruct (applyRule_other tokens i token s Htok Htype)
      as (out1 & token' & s1 & Hrule & Htype' & Hsame1).
    destruct (IH (S i) (<[i := token']> tokens) (result +:+ out1) s1)
      as (out & tokens' & s' & Hrest & Hsame2).
    { rewrite length_insert. lia. }
    { apply Forall_insert; [done|]. by rewrite Htype'. }
    exists out, tokens', s'. split; [|by eapply sameHeadingState_trans].
    cbn [renderInlineFrom]. mrun. by rewrite Hrule.
Qed.

Lemma expectedHeadings_heading sl token next rest :
  type token = "heading_open" →
  expectedHeadings sl (token :: next :: rest)
  = mkHeading (content next, String.length (markup token))
      (Slugger.slug fragmentUnsafe sl (content next)).1
    :: expectedHeadings (Slugger.slug fragmentUnsafe sl (content next)).2 (next :: rest).
Proof.
  intros Htype. unfold expectedHeadings. cbn [headingsOf].
  rewrite decide_True by done.
  cbn [fmap list_fmap fst]. by rewrite slugs_cons.
Qed.

Lemma expectedHeadings_other sl token rest :
  type token ≠ "heading_open" →
  expectedHeadings sl (token :: rest) = expectedHeadings sl rest.
Proof.
  intros Htype. unfold expectedHeadings. cbn [headingsOf]. by rewrite decide_False.
Qed.

Lemma renderFrom_run n i tokens result s p sl :
  i + n = length tokens →
  wellFormed (drop i tokens) = true →
  page s = Some p → activeSlugger s = Some sl →
  ∃ out tokens' s',
    renderFrom n i tokens result s = (Ok (out, tokens'), s') ∧
    page s' = Some {| model := model p;
                      pageHeadings := pageHeadings p ++ expectedHeadings sl (drop i tokens) |}.
Proof.
  revert i tokens result s p sl.
  induction n as [|n IH]; intros i tokens result s p sl Hlen Hwf Hpage Hactive.
  - exists result, tokens, s. split; [done|].
    rewrite drop_ge by lia. unfold expectedHeadings. simpl.
    rewrite app_nil_r, Hpage. by destruct p.
  - destruct (lookup_lt_is_Some_2 tokens i) as [token Htok]; [lia|].
    rewrite (drop_S _ _ _ Htok) in Hwf |- *.
    cbn [wellFormed] in Hwf. apply andb_true_iff in Hwf as [Hhere Hwf].
    cbn [renderFrom]. mrun. rewrite Htok. cbv beta iota.
    assert (∀ token', drop (S i) (<[i := token']> tokens) = drop (S i) tokens) as Hdrop.
    { intros token'. apply drop_insert_lt. lia. }
    destruct (decide (type token = "inline")) as [Hinline|Hninline].
    + assert (type token ≠ "heading_open") as Htype by (rewrite Hinline; done).
      rewrite decide_False in Hhere by done.
      destruct (renderInlineFrom_run (length (children token)) 0 (children token) "" s)
        as (out1 & ch & s1 & Hinl & Hsame); [done| |].
      { apply Forall_forall. intros c Hc.
        rewrite forallb_forall in Hhere.
        apply list_elem_of_In, Hhere in Hc. by apply bool_decide_eq_true in Hc. }
      unfold renderInline. rewrite Hinl.
      destruct (IH (S i) (<[i := setChildren ch token]> tokens) (result +:+ out1) s1 p sl)
        as (out & tokens' & s' & Hrest & Hpage').
      { rewrite length_insert. lia. }
      { by rewrite Hdrop. }
      { destruct Hsame as (-> & _). done. }
      { by rewrite (sameHeadingState_active _ _ Hsame). }
      exists out, tokens', s'. split; [done|].
      by rewrite Hpage', Hdrop, expectedHeadings_other.
    + destruct (decide (type token = "heading_open")) as [Hopen|Hnopen].
      * destruct (drop (S i) tokens) as [|next rest] eqn:Hrest; [done|].
        assert (tokens !! (i + 1) = Some next) as Hnext.
        { pose proof (lookup_drop tokens (S i) 0) as Hl.
          rewrite Hrest in Hl. replace (S i + 0) with (i + 1) in Hl by lia. done. }
        destruct (heading_open_run tokens i token next s p sl Htok Hnext Hpage Hactive)
          as (out1 & s1 & Hopen_run & Hpage1 & Hactive1 & _).
        unfold applyRule. rewrite Htok. mrun. rewrite decide_True by done.
        rewrite Hopen_run.
        destruct (IH (S i) tokens (result +:+ out1) s1 _ _ ltac:(lia)
                    ltac:(by rewrite Hrest) Hpage1 Hactive1)
          as (out & tokens' & s' & Hrun & Hpage').
        exists out, tokens', s'. split; [done|].
        rewrite Hpage', Hrest. cbn [model pageHeadings].
        by rewrite expectedHeadings_heading, <-app_assoc.
      * destruct (applyRule_other tokens i token s Htok Hnopen)
          as (out1 & token' & s1 & Hrule & Htype' & Hsame).
        rewrite Hrule.
        destruct (IH (S i) (<[i := token']> tokens) (result +:+ out1) s1 p sl)
          as (out & tokens' & s' & Hrest & Hpage').
        { rewrite length_insert. lia. }
        { by rewrite Hdrop. }
        { destruct Hsame as (-> & _). done. }
        { by rewrite (sameHeadingState_active _ _ Hsame). }
        exists out, tokens', s'. split; [done|].
        by rewrite Hpage', Hdrop, expectedHeadings_other.
Qed.

Lemma headingsOf_length tokens :
  wellFormed tokens = true →
  length (headingsOf tokens)
  = length (filter (λ t, type t = "heading_open") tokens).
Proof.
  induction tokens as [|token rest IH]; [done|].
  cbn [wellFormed headingsOf]. intros [Hhere Hwf]%andb_true_iff.
  destruct (decide (type token = "heading_open")) as [Hopen|Hnopen].
  - rewrite filter_cons_True by done. destruct rest as [|next rest]; [done|].
    cbn [length]. by rewrite IH.
  - rewrite filter_cons_False by done. by apply IH.
Qed.

Lemma expectedHeadings_length sl tokens :
  length (expectedHeadings sl tokens) = length (headingsOf tokens).
Proof.
  unfold expectedHeadings. apply length_zip_with_l_eq.
  by rewrite slugs_length, length_fmap.
Qed.

Lemma expectedHeadings_lookup sl tokens i h :
  expectedHeadings sl tokens !! i = Some h →
  ∃ slug content,
    (Slugger.slugs fragmentUnsafe sl (headingsOf tokens).*1).1 !! i = Some slug ∧
    (headingsOf tokens).*1 !! i = Some content ∧
    link h = "#md:" +:+ slug ∧ text h = getTextContent content.
Proof.
  unfold expectedHeadings. intros Hi.
  apply lookup_zip_with_Some in Hi as (hd & slug & -> & Hhd & Hslug).
  exists slug, hd.1. split; [done|]. split; [|done].
  by rewrite list_lookup_fmap, Hhd.
Qed.

Lemma render_run tokens s p sl :
  page s = Some p → activeSlugger s = Some sl → wellFormed tokens = true →
  ∃ html s',
    render tokens s = (Ok html, s') ∧
    page s' = Some {| model := model p;
                      pageHeadings := pageHeadings p ++ expectedHeadings sl tokens |}.
Proof.
  intros Hpage Hactive Hwf.
  destruct (renderFrom_run (length tokens) 0 tokens "" s p sl)
    as (out & tokens' & s' & Hrun & Hpage'); [done..|].
  exists out, s'. unfold render. mrun. by rewrite Hrun.
Qed.

(** C1: rendering records the headings of the page.  A [heading_open]
    call appends one entry to the page's list, with the slug that the
    page's slugger issues for the heading's content behind [#md:], the
    plain text of the content, and the length of the markup as level; a
    whole render appends the entries of all headings in document order;
    and for the source of two [# Title] headings on a fresh page the list
    is "#md:title", "#md:title-1". *)
Theorem heading_open_records_headings s p sl :
  page s = Some p →
  activeSlugger s = Some sl →
  (∀ tokens idx token next,
     tokens !! idx = Some token → tokens !! (idx + 1) = Some next →
     ∃ out s',
       heading_open tokens idx s = (Ok out, s') ∧
       page s' = Some
         {| model := model p;
            pageHeadings := pageHeadings p ++
              [{| link := "#md:" +:+ (Slugger.slug fragmentUnsafe sl (content next)).1;
                  text := getTextContent (content next);
                  level := String.length (markup token) |}] |} ∧
       activeSlugger s' = Some (Slugger.slug fragmentUnsafe sl (content next)).2 ∧
       lastHeaderSlug s' = (Slugger.slug fragmentUnsafe sl (content next)).1) ∧
  (∀ tokens, wellFormed tokens = true →
     (∃ html s',
        render tokens s = (Ok html, s') ∧
        page s' = Some {| model := model p;
                          pageHeadings := pageHeadings p ++ expectedHeadings sl tokens |}) ∧
     length (expectedHeadings sl tokens)
     = length (filter (λ t, type t = "heading_open") tokens) ∧
     (∀ i h, expectedHeadings sl tokens !! i = Some h →
        ∃ slug content,
          (Slugger.slugs fragmentUnsafe sl (headingsOf tokens).*1).1 !! i = Some slug ∧
          (headingsOf tokens).*1 !! i = Some content ∧
          link h = "#md:" +:+ slug ∧ text h = getTextContent content)) ∧
  (parser s = true → pageHeadings p = [] → sl = Slugger.new →
   mdParse twoTitles = h1Tokens "Title" ++ h1Tokens "Title" →
   getTextContent "Title" = "Title" →
   (∀ c, asciiLower c = true → fragmentUnsafe c = false) →
   ∃ html s' p',
     parserRender twoTitles s = (Ok html, s') ∧
     page s' = Some p' ∧
     pageHeadings p'
     = [ {| link := "#md:title"; text := "Title"; level := 1 |};
         {| link := "#md:title-1"; text := "Title"; level := 1 |} ]).
Proof.
  intros Hpage Hactive. split; [|split].
  - intros tokens idx token next Htok Hnext.
    destruct (heading_open_run tokens idx token next s p sl Htok Hnext Hpage Hactive)
      as (out & s' & Hrun & Hpage' & Hactive' & Hlast & _).
    by exists out, s'.
  - intros tokens Hwf. split; [by apply render_run|]. split.
    + by rewrite expectedHeadings_length, headingsOf_length.
    + apply expectedHeadings_lookup.
  - intros Hparser Hempty -> Hparse Htext Hsafe.
    destruct (render_run (h1Tokens "Title" ++ h1Tokens "Title") s p Slugger.new
                Hpage Hactive eq_refl) as (html & s' & Hrun & Hpage').
    eexists html, s', _. split; [|split; [exact Hpage'|]].
    + unfold parserRender. mrun. by rewrite Hparser, Hparse.
    + cbn [pageHeadings]. rewrite Hempty. cbn [app].
      unfold expectedHeadings.
      change (headingsOf (h1Tokens "Title" ++ h1Tokens "Title"))
        with [("Title", 1); ("Title", 1)].
      change ([("Title", 1); ("Title", 1)].*1) with (replicate 2 "Title").
      rewrite slugs_repeat, (serialize_Title _ Hsafe).
      unfold mkHeading. cbn [zip_with fst snd fmap list_fmap seq].
      by rewrite Htext.
Qed.

End headings.

(** ** The properties on the sample environment *)

Section examples.
Existing Instance Sample.externals.

Lemma sample_letters_safe c : asciiLower c = true → Sample.unsafe c = false.
Proof. destruct c as [[] [] [] [] [] [] [] []]; vm_compute; congruence. Qed.

Lemma heading_open_records_headings_witness :
  page Sample.start = Some Sample.emptyPage ∧
  activeSlugger Sample.start = Some Slugger.new ∧
  ∃ html s' p',
    parserRender twoTitles Sample.start = (Ok html, s') ∧
    page s' = Some p' ∧
    pageHeadings p'
    = [ {| link := "#md:title"; text := "Title"; level := 1 |};
        {| link := "#md:title-1"; text := "Title"; level := 1 |} ].
Proof.
  split; [reflexivity|]. split; [reflexivity|].
  apply (heading_open_records_headings Sample.start Sample.emptyPage Slugger.new
           eq_refl eq_refl); try reflexivity.
  apply sample_letters_safe.
Defined.

Lemma slug_deterministic_increasing_unique_witness :
  (∀ c, asciiLower c = true → Sample.unsafe c = false) ∧
  (Slugger.slugs Sample.unsafe Slugger.new ["Title"; "Title"; "Title"]).1
  = ["title"; "title-1"; "title-2"].
Proof.
  split; [apply sample_letters_safe|].
  apply (slug_deterministic_increasing_unique Sample.unsafe), sample_letters_safe.
Defined.

Lemma link_open_rewrites_fragment_witness :
  ∃ token',
    link_open [Sample.linkToken "#foo"] 0 Sample.start
    = (Ok (renderToken [token'] 0, [token']), Sample.start) ∧
    attrGet "href" token' = Some "#md:foo".
Proof.
  destruct (link_open_rewrites_fragment [Sample.linkToken "#foo"] 0
              (Sample.linkToken "#foo") "#foo" Sample.start eq_refl eq_refl)
    as (token' & Hrun & _ & _ & _ & _ & Hfoo & _).
  exists token'. split; [exact Hrun|]. apply Hfoo. by left.
Defined.

Lemma getHighlighted_degrades_witness :
  isSupportedLanguage "cobol" = false ∧
  ∃ s',
    getHighlighted "DISPLAY 1." (Some "COBOL") Sample.start = (Ok "DISPLAY 1.", s') ∧
    warningsOf (trace s')
    = [unsupported_highlight_language_0_not_highlighted_in_comment_for_1 "cobol" "README"].
Proof.
  split; [reflexivity|].
  destruct (getHighlighted_degrades "DISPLAY 1." (Some "COBOL") Sample.start)
    as (Hunsupported & _).
  destruct (Hunsupported eq_refl) as (s' & Hrun & Hwarn & _).
  exists s'. split; [exact Hrun | exact Hwarn].
Defined.

Lemma highlightOption_wraps_witness :
  dropFinalNewline "code" = "code" ∧
  dropFinalNewline ("code" +:+ newline +:+ newline) = "code" +:+ newline.
Proof.
  destruct (highlightOption_wraps "code" Sample.start) as (_ & _ & _ & Hcut & Hkeep).
  split.
  - apply Hkeep. intros h'. by destruct h' as [|? [|? [|? [|? [|? ?]]]]].
  - apply (Hcut ("code" +:+ newline)).
Defined.

Lemma highlightOption_unconditional_witness :
  isSupportedLanguage "cobol" = false ∧
  (∃ out s',
     highlightOption "DISPLAY 1." "cobol" Sample.start = (Ok out, s') ∧
     trace s' = [Highlight "DISPLAY 1." "cobol"]) ∧
  (∃ s',
     getHighlighted "DISPLAY 1." (Some "cobol") Sample.start = (Ok "DISPLAY 1.", s') ∧
     ∀ c l, Highlight c l ∉ trace s').
Proof.
  split; [reflexivity|].
  destruct (highlightOption_unconditional "DISPLAY 1." "cobol" "DISPLAY 1." Sample.start)
    as (_ & _ & Hcobol).
  destruct (Hcobol eq_refl eq_refl) as [Hfence (s' & Hrun & Hquiet)].
  split; [exact Hfence|]. exists s'. split; [exact Hrun | exact Hquiet].
Defined.

Lemma getSlugger_fallback_warns_once_witness :
  theme Sample.startCustom = Some CustomTheme ∧
  ∃ s',
    slugEach ["Title"; "Title"; "Title"] Sample.startCustom
    = (Ok (Slugger.slugs Sample.unsafe Slugger.new ["Title"; "Title"; "Title"]).1, s') ∧
    trace s' = [Warn custom_theme_does_not_define_getSlugger].
Proof.
  split; [reflexivity|].
  destruct (getSlugger_fallback_warns_once Sample.startCustom eq_refl) as (_ & _ & Hmany).
  exact (Hmany "Title" ["Title"; "Title"] eq_refl).
Defined.

Lemma parseMarkdown_returns_final_parsedText_witness :
  ∃ html s',
    parseMarkdown (initialize []) (inl twoTitles) 0 Sample.context Sample.start
    = (Ok html, s') ∧
    renderContext s' = None ∧
    (page s' ≫= λ p, Some (pageHeadings p))
    = Some [ {| link := "#md:title"; text := "Title"; level := 1 |};
             {| link := "#md:title-1"; text := "Title"; level := 1 |} ].
Proof.
  destruct (parseMarkdown_returns_final_parsedText (initialize [])
              (inl twoTitles) 0 Sample.context Sample.start) as (_ & Hreturn & _).
  edestruct Hreturn as [Hrun _]; [vm_compute; reflexivity|].
  do 2 eexists. split; [exact Hrun|]. split; reflexivity.
Defined.

Lemma link_open_bare_hash_witness :
  link_open [Sample.linkToken "#"] 0 Sample.start
  = (Ok (renderToken [Sample.linkToken "#"] 0, [Sample.linkToken "#"]), Sample.start).
Proof.
  apply (link_open_bare_hash [Sample.linkToken "#"] 0 (Sample.linkToken "#")
           Sample.start eq_refl eq_refl).
Defined.

(** Edge cases of the anchor rewrite: [md:] alone is taken as the text, and
    a line terminator ends the match. *)
Example rewriteAnchor_md_alone : rewriteAnchor "#md:" = "#md:md:".
Proof. reflexivity. Qed.

Example rewriteAnchor_two_lines :
  rewriteAnchor ("#foo" +:+ newline +:+ "bar") = "#md:foo" +:+ newline +:+ "bar".
Proof. reflexivity. Qed.

(** A heading that spells out an issued suffix takes the next free one. *)
Example slugs_mixed :
  (Slugger.slugs Sample.unsafe Slugger.new
     ["Title"; "Title"; "title-1"; "Title"; "Hello  World!"]).1
  = ["title"; "title-1"; "title-1-1"; "title-2"; "hello-world"].
Proof. vm_compute. reflexivity. Qed.

(** The sample page, rendered with a theme that lacks [getSlugger]: the
    warning is logged once for the two headings. *)
Example render_twoTitles_custom :
  ∃ html s',
    parserRender twoTitles Sample.startCustom = (Ok html, s') ∧
    trace s' = [Warn custom_theme_does_not_define_getSlugger] ∧
    lastHeaderSlug s' = "title-1".
Proof. do 2 eexists. split; [vm_compute; reflexivity|]. by split. Qed.

End examples.

(** * Further properties *)

Section highlighting_more.
Context `{Externals}.

Lemma highlightsOf_app tr1 tr2 :
  highlightsOf (tr1 ++ tr2) = highlightsOf tr1 ++ highlightsOf tr2.
Proof.
  induction tr1 as [|e tr1 IH]; [done|].
  destruct e; simpl; by rewrite IH.
Qed.

(** X1: for a language that is supported and loaded, [getHighlighted]
    returns what [highlight] gives for the text and the lowercased tag
    ([typescript] without a tag), after asking [isSupportedLanguage] and
    [isLoadedLanguage] in that order, and logs no warning. *)
Theorem getHighlighted_delegates (text : string) (lang : option string) (s : State) :
  let l := JS.toLowerCase (JS.or_else lang "typescript") in
  isSupportedLanguage l = true → isLoadedLanguage l = true →
  getHighlighted text lang s
  = (Ok (highlight text l),
     set_trace (trace s ++ [IsSupportedLanguage l; IsLoadedLanguage l; Highlight text l]) s).
Proof.
  intros l Hsup Hload. unfold getHighlighted. fold l. mrun.
  rewrite Hsup. cbn [negb]. cbv iota. rewrite Hload. cbn [negb]. cbv iota.
  unfold set_trace. cbn. by rewrite <-!app_assoc.
Qed.

(** X2: a call of [getHighlighted] changes nothing but the trace, to which
    it only appends; and it either highlights once and logs no warning, or
    logs one warning, makes no [highlight] call and returns the text. *)
Theorem getHighlighted_warns_or_highlights (text : string) (lang : option string)
    (s : State) (r : Res string) (s' : State) :
  getHighlighted text lang s = (r, s') →
  s' = set_trace (trace s') s ∧
  ∃ extra,
    trace s' = trace s ++ extra ∧
    ((warningsOf extra = [] ∧
      highlightsOf extra = [(text, JS.toLowerCase (JS.or_else lang "typescript"))] ∧
      r = Ok (highlight text (JS.toLowerCase (JS.or_else lang "typescript")))) ∨
     (∃ w, warningsOf extra = [w] ∧ highlightsOf extra = [] ∧ r = Ok text)).
Proof.
  unfold getHighlighted. set (l := JS.toLowerCase (JS.or_else lang "typescript")). mrun.
  destruct (isSupportedLanguage l); cbn [negb]; cbv iota;
    [destruct (isLoadedLanguage l); cbn [negb]; cbv iota|];
    intros [= <- <-]; (split; [by destruct s|]); cbn [trace set_trace];
    rewrite <-?app_assoc; eexists; (split; [done|]); cbn; eauto.
Qed.

End highlighting_more.

Section render_invariants.
Context `{Externals}.

Lemma headingsGrow_refl s : headingsGrow s s.
Proof.
  unfold headingsGrow. destruct (page s) as [p|]; [|done].
  exists []. rewrite app_nil_r. by destruct p.
Qed.

Lemma headingsGrow_trans s1 s2 s3 :
  headingsGrow s1 s2 → headingsGrow s2 s3 → headingsGrow s1 s3.
Proof.
  unfold headingsGrow. destruct (page s1) as [p|].
  - intros [more1 ->] [more2 ->]. cbn. exists (more1 ++ more2). by rewrite app_assoc.
  - by intros ->.
Qed.

Lemma sameThemeKind_refl s : sameThemeKind s s.
Proof. unfold sameThemeKind. destruct (theme s) as [[|sluggers]|]; eauto. Qed.

Lemma sameThemeKind_trans s1 s2 s3 :
  sameThemeKind s1 s2 → sameThemeKind s2 s3 → sameThemeKind s1 s3.
Proof.
  unfold sameThemeKind. destruct (theme s1) as [[|sluggers]|].
  - by intros ->.
  - by intros [? ->].
  - by intros ->.
Qed.

Lemma renderStep_refl s : renderStep s s.
Proof.
  split_and!; [done|done|done|apply headingsGrow_refl|apply sameThemeKind_refl|done|].
  exists []. rewrite app_nil_r. by eauto.
Qed.

Lemma forallb_app_true {A} (f : A → bool) l1 l2 :
  forallb f l1 = true → forallb f l2 = true → forallb f (l1 ++ l2) = true.
Proof. intros H1 H2. rewrite forallb_app, H1, H2. done. Qed.

Lemma renderStep_trans s1 s2 s3 : renderStep s1 s2 → renderStep s2 s3 → renderStep s1 s3.
Proof.
  intros (Hp1 & Ho1 & Hc1 & Hg1 & Ht1 & Hd1 & extra1 & Htr1 & Hall1 & Hw1)
         (Hp2 & Ho2 & Hc2 & Hg2 & Ht2 & Hd2 & extra2 & Htr2 & Hall2 & Hw2).
  split; [congruence|]. split; [congruence|]. split; [congruence|].
  split; [by eapply headingsGrow_trans|]. split; [by eapply sameThemeKind_trans|].
  split; [by eauto|].
  exists (extra1 ++ extra2). rewrite Htr2, Htr1, <-app_assoc. split; [done|].
  split; [by apply forallb_app_true|]. rewrite warningsOf_app.
  destruct Hw1 as [Hw1|(Hnone1 & Hcustom1 & Hsome1 & Hw1)]; rewrite Hw1.
  - destruct Hw2 as [Hw2|(Hnone2 & Hcustom2 & Hsome2 & Hw2)]; rewrite Hw2; [by left|].
    right. split_and!; [| |done|done].
    + destruct (defaultSlugger s1) as [sl|] eqn:Hd; [|done].
      destruct Hd1 as [? Hd1]; [by eexists|]. congruence.
    + unfold sameThemeKind in Ht1.
      destruct (theme s1) as [[|sluggers]|]; [done|destruct Ht1; congruence|congruence].
  - destruct Hw2 as [Hw2|(Hnone2 & Hcustom2 & Hsome2 & Hw2)]; rewrite Hw2.
    + right. split_and!; [done|done|by auto|done].
    + destruct Hsome1 as [? Hsome1]. congruence.
Qed.

Lemma stepAt_ret {A} (a : A) s : stepAt renderStep (mret a) s.
Proof. intros r s' [= <- <-]. apply renderStep_refl. Qed.

Lemma stepAt_throw {A} e s : stepAt renderStep (throw (A:=A) e) s.
Proof. intros r s' [= <- <-]. apply renderStep_refl. Qed.

Lemma stepAt_deref {A} (x : option A) s : stepAt renderStep (deref x) s.
Proof. destruct x; [apply stepAt_ret|apply stepAt_throw]. Qed.

Lemma stepAt_bind {A B} (m : M A) (k : A → M B) s :
  stepAt renderStep m s →
  (∀ a s1, m s = (Ok a, s1) → stepAt renderStep (k a) s1) →
  stepAt renderStep (m ≫= k) s.
Proof.
  intros Hm Hk r s'. unfold mbind, M_bind.
  destruct (m s) as [[a|e] s1] eqn:Hrun.
  - intros Hrest. eapply renderStep_trans; [by eapply Hm|by eapply Hk].
  - intros [= <- <-]. by eapply Hm.
Qed.

Lemma stepAt_modify (f : State → State) s :
  renderStep s (f s) → stepAt renderStep (modify f) s.
Proof. by intros Hf r s' [= <- <-]. Qed.

Lemma sameThemeKind_eq s s' : theme s' = theme s → sameThemeKind s s'.
Proof. unfold sameThemeKind. intros ->. destruct (theme s) as [[|sluggers]|]; eauto. Qed.

Lemma renderStep_quiet s s' extra :
  parser s' = parser s → markdownItOptions s' = markdownItOptions s →
  renderContext s' = renderContext s → page s' = page s → sameThemeKind s s' →
  (is_Some (defaultSlugger s) → is_Some (defaultSlugger s')) →
  trace s' = trace s ++ extra → forallb renderEffect extra = true →
  warningsOf extra = [] →
  renderStep s s'.
Proof.
  intros Hp Ho Hc Hpage Ht Hd Htr Hall Hw. split_and!; [done|done|done| |done|done|].
  - unfold headingsGrow. rewrite Hpage. destruct (page s) as [p|]; [|done].
    exists []. rewrite app_nil_r. by destruct p.
  - exists extra. by eauto.
Qed.

Lemma renderStep_set_lastHeaderSlug slug s : renderStep s (set_lastHeaderSlug slug s).
Proof.
  apply (renderStep_quiet _ _ []);
    [done|done|done|done|by apply sameThemeKind_eq|done| |done|done].
  cbn. by rewrite app_nil_r.
Qed.

Lemma renderStep_set_defaultSlugger sl s : renderStep s (set_defaultSlugger (Some sl) s).
Proof.
  apply (renderStep_quiet _ _ []);
    [done|done|done|done|by apply sameThemeKind_eq|by eexists| |done|done].
  cbn. by rewrite app_nil_r.
Qed.

Lemma renderStep_set_theme old new s :
  theme s = Some (DefaultTheme old) → renderStep s (set_theme (Some (DefaultTheme new)) s).
Proof.
  intros Ht. apply (renderStep_quiet _ _ []);
    [done|done|done|done| |done| |done|done].
  - unfold sameThemeKind. rewrite Ht. by eexists.
  - cbn. by rewrite app_nil_r.
Qed.

Lemma renderStep_highlight code lang s :
  renderStep s (set_trace (trace s ++ [Highlight code lang]) s).
Proof.
  apply (renderStep_quiet _ _ [Highlight code lang]);
    [done|done|done|done|by apply sameThemeKind_eq|done|done|done|done].
Qed.

Lemma renderStep_push heading p s :
  page s = Some p →
  renderStep s (set_page (Some {| model := model p;
                                  pageHeadings := pageHeadings p ++ [heading] |}) s).
Proof.
  intros Hp. split_and!; [done|done|done| |by apply sameThemeKind_eq|done|].
  - unfold headingsGrow. rewrite Hp. by eexists.
  - exists []. cbn. rewrite app_nil_r. by eauto.
Qed.

Lemma stepAt_getDefaultSlugger s :
  theme s = Some CustomTheme → stepAt renderStep getDefaultSlugger s.
Proof.
  intros Hcustom r s'. unfold getDefaultSlugger. mrun.
  destruct (defaultSlugger s) as [sl|] eqn:Hd; intros [= <- <-]; [apply renderStep_refl|].
  split_and!; [done|done|done| |by apply sameThemeKind_eq|by eexists|].
  { unfold headingsGrow. cbn. destruct (page s) as [p|]; [|done].
    exists []. rewrite app_nil_r. by destruct p. }
  exists [Warn custom_theme_does_not_define_getSlugger]. split; [done|]. split; [done|].
  right. split_and!; [done|done|by eexists|done].
Qed.

Lemma stepAt_getSlugger s : stepAt renderStep getSlugger s.
Proof.
  unfold getSlugger. apply stepAt_bind; [apply stepAt_ret|]. intros ? ? [= <- <-].
  apply stepAt_bind; [apply stepAt_deref|]. intros t s1 Ht.
  destruct (theme s) as [t0|] eqn:Htheme; [|done]. injection Ht as <- <-.
  destruct t0 as [|sluggers]; [by apply stepAt_getDefaultSlugger|].
  apply stepAt_bind; [apply stepAt_deref|]. intros p s1 Hp.
  destruct (page s) as [p0|]; [|done]. injection Hp as <- <-.
  apply stepAt_bind; [|intros; apply stepAt_ret].
  apply stepAt_modify. by eapply renderStep_set_theme.
Qed.

Lemma stepAt_sluggerSlug r content s : stepAt renderStep (sluggerSlug r content) s.
Proof.
  unfold sluggerSlug. apply stepAt_bind; [apply stepAt_ret|]. intros ? ? [= <- <-].
  destruct r as [|i].
  - apply stepAt_bind; [apply stepAt_deref|]. intros slugger s1 Hs.
    destruct (defaultSlugger s) as [sl|]; [|done]. injection Hs as <- <-.
    destruct (Slugger.slug fragmentUnsafe sl content) as [slug sl'].
    apply stepAt_bind; [|intros; apply stepAt_ret].
    apply stepAt_modify, renderStep_set_defaultSlugger.
  - apply stepAt_bind; [apply stepAt_deref|]. intros t s1 Ht.
    destruct (theme s) as [t0|] eqn:Htheme; [|done]. injection Ht as <- <-.
    destruct t0 as [|sluggers]; [apply stepAt_throw|].
    apply stepAt_bind; [apply stepAt_deref|]. intros slugger s1 Hs.
    destruct (sluggers !! i) as [sl|]; [|done]. injection Hs as <- <-.
    destruct (Slugger.slug fragmentUnsafe sl content) as [slug sl'].
    apply stepAt_bind; [|intros; apply stepAt_ret].
    apply stepAt_modify. by eapply renderStep_set_theme.
Qed.

Lemma stepAt_highlightOption code lang s : stepAt renderStep (highlightOption code lang) s.
Proof.
  intros r s'. destruct (highlightOption_run code lang s) as [out ->].
  intros [= <- <-]. apply renderStep_highlight.
Qed.

Lemma stepAt_heading_open tokens idx s : stepAt renderStep (heading_open tokens idx) s.
Proof.
  unfold heading_open.
  apply stepAt_bind; [apply stepAt_deref|]. intros next s1 Hn.
  destruct (tokens !! (idx + 1)); [|done]. injection Hn as <- <-.
  apply stepAt_bind; [apply stepAt_deref|]. intros token s1 Ht.
  destruct (tokens !! idx); [|done]. injection Ht as <- <-.
  apply stepAt_bind; [apply stepAt_getSlugger|]. intros slugger s1 _.
  apply stepAt_bind; [apply stepAt_sluggerSlug|]. intros slug s2 _.
  apply stepAt_bind; [apply stepAt_modify, renderStep_set_lastHeaderSlug|].
  intros [] s3 _.
  apply stepAt_bind; [apply stepAt_ret|]. intros ? ? [= <- <-].
  apply stepAt_bind; [apply stepAt_deref|]. intros p s4 Hp.
  destruct (page s3) as [p0|] eqn:Hpage; [|done]. injection Hp as <- <-.
  apply stepAt_bind; [|intros; apply stepAt_ret].
  by apply stepAt_modify, renderStep_push.
Qed.

Lemma stepAt_heading_close tokens idx s : stepAt renderStep (heading_close tokens idx) s.
Proof.
  unfold heading_close. apply stepAt_bind; [apply stepAt_ret|]. intros ? ? [= <- <-].
  apply stepAt_bind; [apply stepAt_deref|]. intros; apply stepAt_ret.
Qed.

Lemma stepAt_link_open tokens idx s : stepAt renderStep (link_open tokens idx) s.
Proof.
  unfold link_open. apply stepAt_bind; [apply stepAt_deref|]. intros; apply stepAt_ret.
Qed.

Lemma stepAt_fence tokens idx s : stepAt renderStep (fence tokens idx) s.
Proof.
  unfold fence. apply stepAt_bind; [apply stepAt_deref|]. intros token s1 _.
  apply stepAt_bind; [apply stepAt_highlightOption|]. intros; apply stepAt_ret.
Qed.

Lemma stepAt_applyRule tokens idx s : stepAt renderStep (applyRule tokens idx) s.
Proof.
  unfold applyRule. apply stepAt_bind; [apply stepAt_deref|]. intros token s1 _.
  repeat case_decide.
  - apply stepAt_bind; [apply stepAt_heading_open|]. intros; apply stepAt_ret.
  - apply stepAt_bind; [apply stepAt_heading_close|]. intros; apply stepAt_ret.
  - apply stepAt_link_open.
  - apply stepAt_bind; [apply stepAt_fence|]. intros; apply stepAt_ret.
  - apply stepAt_ret.
Qed.

Lemma stepAt_renderInlineFrom n i tokens result s :
  stepAt renderStep (renderInlineFrom n i tokens result) s.
Proof.
  revert i tokens result s. induction n as [|n IH]; intros i tokens result s.
  - apply stepAt_ret.
  - cbn [renderInlineFrom]. apply stepAt_bind; [apply stepAt_applyRule|].
    intros [out tokens'] s1 _. apply IH.
Qed.

Lemma stepAt_renderFrom n i tokens result s :
  stepAt renderStep (renderFrom n i tokens result) s.
Proof.
  revert i tokens result s. induction n as [|n IH]; intros i tokens result s.
  - apply stepAt_ret.
  - cbn [renderFrom]. apply stepAt_bind; [apply stepAt_deref|]. intros token s1 _.
    case_decide.
    + apply stepAt_bind; [apply stepAt_renderInlineFrom|]. intros [out ch] s2 _. apply IH.
    + apply stepAt_bind; [apply stepAt_applyRule|]. intros [out tokens'] s2 _. apply IH.
Qed.

Lemma stepAt_render tokens s : stepAt renderStep (render tokens) s.
Proof.
  unfold render. apply stepAt_bind; [apply stepAt_renderFrom|].
  intros [out tokens'] s1 _. apply stepAt_ret.
Qed.

Lemma stepAt_parserRender src s : stepAt renderStep (parserRender src) s.
Proof.
  unfold parserRender. apply stepAt_bind; [apply stepAt_ret|]. intros ? ? [= <- <-].
  destruct (parser s); [apply stepAt_render|apply stepAt_throw].
Qed.

End render_invariants.

Section render_properties.
Context `{Externals}.

(** X3: whatever the tokens, and whether the render returns or throws, it
    logs at most one warning, the one about the missing [getSlugger], and
    only when the theme lacks [getSlugger] and the fallback slugger did not
    exist before; its other outside calls are [highlight] calls, never
    [isSupportedLanguage] or [isLoadedLanguage]. *)
Theorem render_warns_at_most_once tokens s r s' :
  render tokens s = (r, s') →
  ∃ extra,
    trace s' = trace s ++ extra ∧
    forallb renderEffect extra = true ∧
    (warningsOf extra = [] ∨
     (defaultSlugger s = None ∧ theme s = Some CustomTheme ∧
      warningsOf extra = [custom_theme_does_not_define_getSlugger])) ∧
    (∀ lang, (IsSupportedLanguage lang ∉ extra) ∧ (IsLoadedLanguage lang ∉ extra)).
Proof.
  intros Hrun.
  destruct (stepAt_render tokens s r s' Hrun)
    as (_ & _ & _ & _ & _ & _ & extra & Htr & Hall & Hw).
  exists extra. split_and!; [done|done| |].
  - destruct Hw as [Hw|(? & ? & _ & Hw)]; [by left|by right].
  - intros lang. rewrite forallb_forall in Hall.
    split; intros Hin%list_elem_of_In%Hall; done.
Qed.

(** X4: whatever the tokens, and whether the render returns or throws, the
    current page stays the same page and keeps the headings it had, new ones
    are added behind them; without a current page there is none afterwards;
    and the parser, the options and the render context are left alone. *)
Theorem render_only_appends_headings tokens s r s' :
  render tokens s = (r, s') →
  (∀ p, page s = Some p →
     ∃ more, page s' = Some {| model := model p;
                               pageHeadings := pageHeadings p ++ more |}) ∧
  (page s = None → page s' = None) ∧
  renderContext s' = renderContext s ∧
  parser s' = parser s ∧
  markdownItOptions s' = markdownItOptions s.
Proof.
  intros Hrun.
  destruct (stepAt_render tokens s r s' Hrun) as (Hp & Ho & Hc & Hg & _).
  unfold headingsGrow in Hg. split_and!; [| |done..].
  - intros p Hpage. by rewrite Hpage in Hg.
  - intros Hpage. by rewrite Hpage in Hg.
Qed.



(** X6: a rule that is handed an index outside the token array throws a
    [TypeError] and changes nothing; so does [heading_open] when no token
    follows the heading, before any slug is taken. *)
Theorem rules_missing_token tokens idx s :
  (tokens !! (idx + 1) = None → heading_open tokens idx s = (Throw TypeError, s)) ∧
  (tokens !! idx = None →
     heading_open tokens idx s = (Throw TypeError, s) ∧
     heading_close tokens idx s = (Throw TypeError, s) ∧
     link_open tokens idx s = (Throw TypeError, s)).
Proof.
  assert (tokens !! (idx + 1) = None → heading_open tokens idx s = (Throw TypeError, s))
    as Hopen.
  { intros Hnext. unfold heading_open. by rewrite Hnext. }
  split; [done|]. intros Htok. split_and!.
  - apply Hopen. apply lookup_ge_None in Htok. apply lookup_ge_None. lia.
  - unfold heading_close. by rewrite Htok.
  - unfold link_open. by rewrite Htok.
Qed.

(** X7: [getSlugger] needs a theme, and with a theme that has [getSlugger]
    a current page: otherwise it throws a [TypeError] and changes nothing.
    With such a theme and a page it answers for the page's reflection,
    logs nothing and leaves the fallback slugger alone; a theme without
    [getSlugger] needs no page. *)
Theorem getSlugger_needs_theme_and_page s :
  (theme s = None → getSlugger s = (Throw TypeError, s)) ∧
  (∀ sluggers, theme s = Some (DefaultTheme sluggers) → page s = None →
     getSlugger s = (Throw TypeError, s)) ∧
  (∀ sluggers p, theme s = Some (DefaultTheme sluggers) → page s = Some p →
     ∃ s', getSlugger s = (Ok (ThemeSluggerRef (reflectionId (model p))), s') ∧
       trace s' = trace s ∧ defaultSlugger s' = defaultSlugger s ∧ page s' = page s) ∧
  (theme s = Some CustomTheme →
     ∃ s', getSlugger s = (Ok DefaultSluggerRef, s') ∧
       page s' = page s ∧ is_Some (defaultSlugger s')).
Proof.
  unfold getSlugger, getDefaultSlugger. mrun. split_and!.
  - intros Ht. by rewrite Ht.
  - intros sluggers Ht Hp. by rewrite Ht, Hp.
  - intros sluggers p Ht Hp. rewrite Ht, Hp. by eexists.
  - intros Ht. rewrite Ht.
    destruct (defaultSlugger s) eqn:Hd; eexists; (split; [done|]); cbn; eauto.
Qed.

(** X8: without a current page [heading_open] throws a [TypeError] and
    records no heading.  With a theme that has [getSlugger] (or no theme)
    nothing is changed; with the fallback slugger the heading's slug has
    been taken and remembered as the last one when the exception is
    thrown. *)
Theorem heading_open_without_page tokens idx token next s :
  tokens !! idx = Some token → tokens !! (idx + 1) = Some next →
  page s = None →
  (theme s ≠ Some CustomTheme → heading_open tokens idx s = (Throw TypeError, s)) ∧
  (theme s = Some CustomTheme →
     let sl := default Slugger.new (defaultSlugger s) in
     ∃ s',
       heading_open tokens idx s = (Throw TypeError, s') ∧
       page s' = None ∧
       defaultSlugger s' = Some (Slugger.slug fragmentUnsafe sl (content next)).2 ∧
       lastHeaderSlug s' = (Slugger.slug fragmentUnsafe sl (content next)).1).
Proof.
  intros Htok Hnext Hpage.
  unfold heading_open. rewrite Htok, Hnext.
  unfold getSlugger, getDefaultSlugger, sluggerSlug. mrun.
  destruct s as [ds th pg ps opts rc lhs tr]. cbn in Hpage. subst pg. cbn.
  split.
  - intros Hth. destruct th as [[|sluggers]|]; done.
  - intros ->. destruct ds as [sl0|]; cbn;
      destruct (Slugger.slug fragmentUnsafe _ (content next)) as [r sl']; cbn;
      by eexists.
Qed.

(** X9: the anchor that [heading_open] emits, the link it records and the
    icon of the [heading_close] that follows all carry the slug of that
    heading: the anchor id is [md:slug], the last recorded link is
    [#md:slug], and [heading_close] renders the icon for [md:slug] with the
    render context in force and changes nothing. *)
Theorem heading_close_pairs_with_heading_open tokens idx token next s p sl :
  tokens !! idx = Some token → tokens !! (idx + 1) = Some next →
  page s = Some p → activeSlugger s = Some sl →
  ∃ out s' slug,
    heading_open tokens idx s = (Ok out, s') ∧
    out = "<a id=" +:+ JS.quoted ("md:" +:+ slug) +:+ " class=" +:+ JS.quoted "tsd-anchor"
          +:+ "></a><" +:+ tag token +:+ " class=" +:+ JS.quoted "tsd-anchor-link" +:+ ">" ∧
    (∃ p', page s' = Some p' ∧
       link <$> last (pageHeadings p') = Some ("#" +:+ "md:" +:+ slug)) ∧
    (∀ tokens' idx' closing, tokens' !! idx' = Some closing →
       heading_close tokens' idx' s'
       = (Ok (renderAnchorIcon (renderContext s) ("md:" +:+ slug)
              +:+ "</" +:+ tag closing +:+ ">"), s')).
Proof.
  intros Htok Hnext Hpage Hactive.
  destruct (heading_open_run tokens idx token next s p sl Htok Hnext Hpage Hactive)
    as (out & s' & Hrun & Hpage' & _ & Hlast & Hout).
  destruct (stepAt_heading_open tokens idx s _ _ Hrun) as (_ & _ & Hctx & _).
  exists out, s', (Slugger.slug fragmentUnsafe sl (content next)).1.
  split_and!; [done|done| |].
  - eexists. split; [exact Hpage'|]. cbn [pageHeadings]. by rewrite last_snoc.
  - intros tokens' idx' closing Hclosing. unfold heading_close. mrun.
    by rewrite Hclosing, Hlast, Hctx.
Qed.

(** X10: the fallback slugger does not belong to a page.  With a theme
    that lacks [getSlugger], a heading rendered after the current page has
    been replaced gets the slug that the same slugger issues next, as if
    both headings were on one page. *)
Theorem fallback_slugger_shared_across_pages
    tokens1 idx1 token1 next1 tokens2 idx2 token2 next2 s p1 p2 :
  theme s = Some CustomTheme → page s = Some p1 →
  tokens1 !! idx1 = Some token1 → tokens1 !! (idx1 + 1) = Some next1 →
  tokens2 !! idx2 = Some token2 → tokens2 !! (idx2 + 1) = Some next2 →
  let sl := default Slugger.new (defaultSlugger s) in
  let slug1 := (Slugger.slug fragmentUnsafe sl (content next1)).1 in
  let sl1 := (Slugger.slug fragmentUnsafe sl (content next1)).2 in
  let slug2 := (Slugger.slug fragmentUnsafe sl1 (content next2)).1 in
  ∃ out1 s1 out2 s2,
    heading_open tokens1 idx1 s = (Ok out1, s1) ∧
    heading_open tokens2 idx2 (set_page (Some p2) s1) = (Ok out2, s2) ∧
    page s2 = Some {| model := model p2;
                      pageHeadings := pageHeadings p2 ++
                        [mkHeading (content next2, String.length (markup token2)) slug2] |} ∧
    [slug1; slug2] = (Slugger.slugs fragmentUnsafe sl [content next1; content next2]).1 ∧
    slug1 ≠ slug2.
Proof.
  intros Hcustom Hpage Htok1 Hnext1 Htok2 Hnext2 sl slug1 sl1 slug2.
  assert (activeSlugger s = Some sl) as Hactive.
  { unfold activeSlugger. by rewrite Hcustom. }
  destruct (heading_open_run tokens1 idx1 token1 next1 s p1 sl Htok1 Hnext1 Hpage Hactive)
    as (out1 & s1 & Hrun1 & _ & Hactive1 & _).
  destruct (stepAt_heading_open tokens1 idx1 s _ _ Hrun1) as (_ & _ & _ & _ & Hkind & _).
  unfold sameThemeKind in Hkind. rewrite Hcustom in Hkind.
  assert (activeSlugger (set_page (Some p2) s1) = Some sl1) as Hactive2.
  { unfold activeSlugger in Hactive1 |- *. cbn. by rewrite Hkind in Hactive1 |- *. }
  destruct (heading_open_run tokens2 idx2 token2 next2 (set_page (Some p2) s1) p2 sl1
              Htok2 Hnext2 eq_refl Hactive2) as (out2 & s2 & Hrun2 & Hpage2 & _).
  exists out1, s1, out2, s2. split_and!; [done|done|done| |].
  - by rewrite !slugs_cons.
  - pose proof (slugs_NoDup fragmentUnsafe [content next1; content next2] sl) as Hnd.
    rewrite !slugs_cons in Hnd. cbn in Hnd.
    apply NoDup_cons in Hnd as [Hnotin _]. intros Heq. apply Hnotin.
    fold slug1 sl1 slug2. rewrite Heq. by left.
Qed.

End render_properties.

Section links_more.
Context `{Externals}.

Lemma attrsSet_names name value old l :
  attrsGet name l = Some old → (attrsSet name value l).*1 = l.*1.
Proof.
  induction l as [|[n v] l IH]; [done|]. cbn [attrsGet attrsSet].
  case_decide as Hn.
  - intros _. cbn. by rewrite Hn.
  - intros Hget. cbn. by rewrite IH.
Qed.

(** X11: a link token without an [href] attribute, or with an empty one, is
    rendered as it is: [link_open] leaves the token array and the state
    unchanged. *)
Theorem link_open_without_href tokens idx token s :
  tokens !! idx = Some token →
  attrGet "href" token = None ∨ attrGet "href" token = Some "" →
  link_open tokens idx s = (Ok (renderToken tokens idx, tokens), s).
Proof.
  intros Htok Hhref. unfold link_open. rewrite Htok. mrun.
  by destruct Hhref as [-> | ->].
Qed.

(** X12: the anchor rewrite is idempotent, so a link that already points to
    an [md:] anchor is not prefixed again; its result is the href itself or
    [#md:] followed by text, and a non-empty href never becomes empty. *)
Theorem rewriteAnchor_idempotent href :
  rewriteAnchor (rewriteAnchor href) = rewriteAnchor href ∧
  (rewriteAnchor href = href ∨
   ∃ t, startsText t = true ∧ rewriteAnchor href = "#md:" +:+ t) ∧
  (JS.truthy href = true → JS.truthy (rewriteAnchor href) = true).
Proof.
  assert (rewriteAnchor href = href ∨
          ∃ t, startsText t = true ∧ rewriteAnchor href = "#md:" +:+ t) as Hshape.
  { destruct href as [|c r]; [by left|].
    destruct (decide (c = "#"%char)) as [->|Hc].
    - change (String "#" r) with ("#" +:+ r). rewrite rewriteAnchor_hash.
      destruct (JS.stripPrefix "md:" r) as [u|].
      + destruct (startsText u) eqn:Hu; [right; by exists u|].
        destruct (startsText r) eqn:Hr; [right; by exists r|by left].
      + destruct (startsText r) eqn:Hr; [right; by exists r|by left].
    - left. apply rewriteAnchor_other. intros r' [= ? ?]. done. }
  split_and!; [|done|].
  - destruct Hshape as [Heq|(t & Ht & ->)]; [by rewrite !Heq|]. by apply rewriteAnchor_md.
  - intros Htruthy. destruct (JS.truthy (rewriteAnchor href)) eqn:Hres; [done|].
    apply rewriteAnchor_falsy in Hres. by subst href.
Qed.

(** X13: [link_open] touches nothing but the value of [href]: the token it
    leaves at the index has the same type, tag, markup, content, info and
    children and the same attribute names in the same order, every other
    attribute keeps its value, and the state is unchanged. *)
Theorem link_open_changes_only_href tokens idx token s :
  tokens !! idx = Some token →
  ∃ token',
    link_open tokens idx s
    = (Ok (renderToken (<[idx := token']> tokens) idx, <[idx := token']> tokens), s) ∧
    (type token', tag token', markup token', content token', info token', children token')
    = (type token, tag token, markup token, content token, info token, children token) ∧
    (attrs token').*1 = (attrs token).*1 ∧
    (∀ name, name ≠ "href" → attrGet name token' = attrGet name token).
Proof.
  intros Htok. unfold link_open. rewrite Htok. mrun.
  destruct (attrGet "href" token) as [href|] eqn:Hhref; cbn [fmap option_fmap option_map].
  - destruct (JS.truthy (rewriteAnchor href)).
    + eexists. split; [done|]. unfold attrGet, attrSet in *. cbn. split_and!; [done| |].
      * by eapply attrsSet_names.
      * intros name Hne. by apply attrsGet_set_ne.
    + exists token. by rewrite list_insert_id.
  - exists token. by rewrite list_insert_id.
Qed.

End links_more.

Section fence_more.
Context `{Externals}.



End fence_more.

Section pipeline_more.
Context `{Externals}.

Lemma trigger_plugin fs event s :
  trigger (initialize (textListener <$> fs)) event s
  = (html ← parserRender (foldl (λ t f, f t) (parsedText event) fs);
     mret (setParsedText html event)) s.
Proof.
  unfold initialize. rewrite trigger_app. unfold mbind at 1, M_bind at 1.
  rewrite trigger_textListeners. cbn [trigger]. unfold onParseMarkdown. mrun.
  cbn [parsedText setParsedText].
  by destruct (parserRender _ s) as [[html|e] s1]; destruct event.
Qed.

(** X15: with the plugin subscribed behind text-rewriting subscribers,
    [parseMarkdown] renders the source as those subscribers left it, with
    the render context set; when the render returns, its HTML is returned
    and the context is cleared; when it throws, the exception passes
    through and the context stays set. *)
Theorem parseMarkdown_renders_transformed_source fs input page context s :
  parser s = true →
  let src := foldl (λ t f, f t) (flattened input context s) fs in
  (∀ html s1,
     render (mdParse src) (set_renderContext (Some context) s) = (Ok html, s1) →
     parseMarkdown (initialize (textListener <$> fs)) input page context s
     = (Ok html, set_renderContext None s1)) ∧
  (∀ e s1,
     render (mdParse src) (set_renderContext (Some context) s) = (Throw e, s1) →
     parseMarkdown (initialize (textListener <$> fs)) input page context s
     = (Throw e, s1) ∧
     renderContext s1 = Some context).
Proof.
  intros Hparser src.
  assert (parseMarkdown (initialize (textListener <$> fs)) input page context s
          = match render (mdParse src) (set_renderContext (Some context) s) with
            | (Ok html, s1) => (Ok html, set_renderContext None s1)
            | (Throw e, s1) => (Throw e, s1)
            end) as Hrun.
  { unfold parseMarkdown. mrun. fold (flattened input context s).
    rewrite trigger_plugin. unfold parserRender. mrun.
    cbn [parser set_renderContext newMarkdownEvent parsedText]. rewrite Hparser.
    fold src. by destruct (render (mdParse src) _) as [[html|e] s1]. }
  split.
  - intros html s1 Hrender. by rewrite Hrun, Hrender.
  - intros e s1 Hrender. split; [by rewrite Hrun, Hrender|].
    by destruct (stepAt_render _ _ _ _ Hrender) as (_ & _ & -> & _).
Qed.

(** X16: before [setupParser] has run there is no parser: [parseMarkdown]
    with the plugin subscribed throws a [TypeError], and the render context
    it had set stays set. *)
Theorem parseMarkdown_before_setupParser fs input page context s :
  parser s = false →
  parseMarkdown (initialize (textListener <$> fs)) input page context s
  = (Throw TypeError, set_renderContext (Some context) s).
Proof.
  intros Hparser.
  unfold parseMarkdown. mrun. rewrite trigger_plugin. unfold parserRender. mrun.
  cbn [parser set_renderContext]. by rewrite Hparser.
Qed.

(** X17: the plugin does not look at the [page] argument of
    [parseMarkdown]: with the plugin subscribed behind text-rewriting
    subscribers, the result and the final state are the same for every
    page argument; headings go to the plugin's current page. *)
Theorem parseMarkdown_ignores_page_argument fs input page1 page2 context s :
  parseMarkdown (initialize (textListener <$> fs)) input page1 context s
  = parseMarkdown (initialize (textListener <$> fs)) input page2 context s.
Proof.
  unfold parseMarkdown. mrun. rewrite !trigger_plugin. mrun.
  cbn [parsedText newMarkdownEvent].
  by destruct (parserRender _ _) as [[html|e] s1].
Qed.


End pipeline_more.

Section footer_properties.
Import Footer.
Context (classNames : list (string * bool) → string).

Lemma elementsByTag_element t tag props children :
  elementsByTag t (JsxElement tag props children)
  = (if decide (tag = t) then [JsxElement tag props children] else [])
    ++ concat (elementsByTag t <$> children).
Proof.
  cbn [elementsByTag]. f_equal.
  induction children as [|c rest IH]; [done|]. cbn [fmap list_fmap concat]. by rewrite <-IH.
Qed.

Lemma elementsByTag_fragment t children :
  elementsByTag t (JsxFragment children) = concat (elementsByTag t <$> children).
Proof.
  cbn [elementsByTag].
  induction children as [|c rest IH]; [done|]. cbn [fmap list_fmap concat]. by rewrite <-IH.
Qed.

Lemma elementsByTag_array t items :
  elementsByTag t (JsxArray items) = concat (elementsByTag t <$> items).
Proof.
  cbn [elementsByTag].
  induction items as [|c rest IH]; [done|]. cbn [fmap list_fmap concat]. by rewrite <-IH.
Qed.

Lemma concat_singletons {A} (l : list A) : concat ((λ x, [x]) <$> l) = l.
Proof. induction l as [|x l IH]; [done|]. cbn. by rewrite IH. Qed.

Lemma concat_nils {A B} (l : list A) : concat ((λ _, @nil B) <$> l) = [].
Proof. induction l as [|x l IH]; [done|]. done. Qed.

Lemma elementsByTag_item t item :
  elementsByTag t (legendItem item)
  = if decide ("li" = t) then [legendItem item]
    else if decide ("span" = t)
         then [JsxElement "span" [("class", "tsd-kind-icon")] [JsxText (name item)]]
         else [].
Proof.
  unfold legendItem. rewrite !elementsByTag_element. cbn [fmap list_fmap concat elementsByTag].
  rewrite !app_nil_r. repeat case_decide; subst; done.
Qed.

Lemma elementsByTag_group t g :
  elementsByTag t (legendGroup g)
  = (if decide ("ul" = t) then [legendGroup g] else [])
    ++ concat ((λ item, elementsByTag t (legendItem item)) <$> g).
Proof.
  unfold legendGroup at 1. rewrite elementsByTag_element. f_equal.
  cbn [fmap list_fmap concat]. rewrite app_nil_r, elementsByTag_array.
  by rewrite <-list_fmap_compose.
Qed.

Lemma elementsByTag_groups t gs :
  elementsByTag t (JsxArray (legendGroup <$> gs))
  = concat ((λ g, elementsByTag t (legendGroup g)) <$> gs).
Proof. by rewrite elementsByTag_array, <-list_fmap_compose. Qed.

(** The elements of the footer outside the legend and the generator
    notice. *)
Lemma elementsByTag_footer t props :
  t ≠ "footer" → t ≠ "div" → t ≠ "h2" →
  elementsByTag t (footer classNames props)
  = elementsByTag t (match legend props with
                     | Some groups => JsxArray (legendGroup <$> groups)
                     | None => JsxUndefined
                     end)
    ++ elementsByTag t (if negb (hideGenerator props) then generator else JsxFalse).
Proof.
  intros Hfooter Hdiv Hh2. unfold footer.
  rewrite elementsByTag_fragment. cbn [fmap list_fmap concat].
  repeat (rewrite elementsByTag_element; cbn [fmap list_fmap concat]).
  rewrite !decide_False by congruence. cbn [app elementsByTag]. by rewrite !app_nil_r.
Qed.

Lemma elementsByTag_group_li g : elementsByTag "li" (legendGroup g) = legendItem <$> g.
Proof.
  rewrite elementsByTag_group. rewrite decide_False by done. cbn [app].
  induction g as [|item g IH]; [done|]. cbn [fmap list_fmap concat].
  rewrite IH, elementsByTag_item. by rewrite decide_True.
Qed.

Lemma elementsByTag_group_ul g : elementsByTag "ul" (legendGroup g) = [legendGroup g].
Proof.
  rewrite elementsByTag_group. rewrite decide_True by done.
  assert (concat ((λ item, elementsByTag "ul" (legendItem item)) <$> g) = []) as ->; [|done].
  induction g as [|item g IH]; [done|]. cbn [fmap list_fmap concat].
  by rewrite IH, elementsByTag_item.
Qed.

(** X19: the footer shows the legend as it is given: one [ul] per group
    and, in order, one [li] per entry, whose class is the entry's classes
    joined by blanks and whose text is the entry's name; without a legend
    there is no list. *)
Theorem footer_legend_items props :
  let groups := default [] (legend props) in
  length (elementsByTag "ul" (footer classNames props)) = length groups ∧
  (λ li, (propOf "class" li, textOf li)) <$> elementsByTag "li" (footer classNames props)
  = (λ item, (Some (join " " (classes item)), name item)) <$> concat groups.
Proof.
  intros groups.
  assert (∀ t, t = "ul" ∨ t = "li" →
            elementsByTag t (if negb (hideGenerator props) then generator else JsxFalse) = [])
    as Hgen.
  { intros t [-> | ->]; by destruct (hideGenerator props). }
  rewrite !elementsByTag_footer by done. rewrite !Hgen by auto. rewrite !app_nil_r.
  unfold groups. clear groups. destruct (legend props) as [gs|]; [|done].
  change (default [] (Some gs)) with gs.
  rewrite !elementsByTag_groups. split.
  - induction gs as [|g gs IH]; [done|].
    cbn [fmap list_fmap concat]. by rewrite length_app, IH, elementsByTag_group_ul.
  - induction gs as [|g gs IH]; [done|].
    cbn [fmap list_fmap concat]. rewrite !fmap_app, IH. f_equal.
    rewrite elementsByTag_group_li, <-list_fmap_compose.
    apply list_fmap_ext. intros _ item _. cbn.
    rewrite !string_app_nil_r. by rewrite decide_True.
Qed.

(** X20: the generator notice and the border go together: the footer
    element's class is [classNames] of [with-border-bottom] set to the
    negation of [hideGenerator], and the footer contains a link, the one to
    typedoc.org, exactly when [hideGenerator] is off, whatever the legend. *)
Theorem footer_generator_link props :
  propOf "class" <$> elementsByTag "footer" (footer classNames props)
  = [Some (classNames [("with-border-bottom", negb (hideGenerator props))])] ∧
  elementsByTag "a" (footer classNames props)
  = (if hideGenerator props then []
     else [JsxElement "a" [("href", "https://typedoc.org/"); ("target", "_blank")]
             [JsxText "TypeDoc"]]).
Proof.
  assert (∀ t, t = "footer" ∨ t = "a" →
            elementsByTag t (match legend props with
                             | Some groups => JsxArray (legendGroup <$> groups)
                             | None => JsxUndefined
                             end) = []) as Hlegend.
  { intros t Ht. destruct (legend props) as [gs|]; [|done].
    rewrite elementsByTag_groups.
    induction gs as [|g gs IH]; [done|].
    cbn [fmap list_fmap concat]. rewrite IH, app_nil_r, elementsByTag_group.
    assert (concat ((λ item, elementsByTag t (legendItem item)) <$> g) = []) as ->.
    { induction g as [|item g IHg]; [done|]. cbn [fmap list_fmap concat].
      rewrite IHg, elementsByTag_item. by destruct Ht as [-> | ->]. }
    by destruct Ht as [-> | ->]. }
  split.
  - unfold footer. rewrite elementsByTag_fragment. cbn [fmap list_fmap concat].
    repeat (rewrite elementsByTag_element; cbn [fmap list_fmap concat]).
    rewrite Hlegend by auto. rewrite decide_True by done. rewrite !decide_False by done.
    cbn [app elementsByTag]. by destruct (hideGenerator props).
  - rewrite elementsByTag_footer by done. rewrite Hlegend by auto.
    by destruct (hideGenerator props).
Qed.

End footer_properties.

(** ** The further properties on the sample environment *)

Section more_examples.
Existing Instance Sample.externals.

Lemma getHighlighted_delegates_witness :
  getHighlighted "x := 1" (Some "Go") Sample.start
  = (Ok (highlight "x := 1" "go"),
     set_trace [IsSupportedLanguage "go"; IsLoadedLanguage "go"; Highlight "x := 1" "go"]
       Sample.start).
Proof. exact (getHighlighted_delegates "x := 1" (Some "Go") Sample.start eq_refl eq_refl). Defined.

Lemma getHighlighted_warns_or_highlights_witness :
  (getHighlighted "DISPLAY 1." (Some "cobol") Sample.start).2
  = set_trace (trace (getHighlighted "DISPLAY 1." (Some "cobol") Sample.start).2) Sample.start.
Proof.
  destruct (getHighlighted "DISPLAY 1." (Some "cobol") Sample.start) as [r s'] eqn:Hrun.
  exact (proj1 (getHighlighted_warns_or_highlights _ _ _ _ _ Hrun)).
Defined.

Lemma render_warns_at_most_once_witness :
  ∃ extra,
    trace (render (h1Tokens "Title" ++ h1Tokens "Title") Sample.startCustom).2
    = trace Sample.startCustom ++ extra ∧
    forallb renderEffect extra = true.
Proof.
  destruct (render (h1Tokens "Title" ++ h1Tokens "Title") Sample.startCustom)
    as [r s'] eqn:Hrun.
  destruct (render_warns_at_most_once _ _ _ _ Hrun) as (extra & Htrace & Hall & _).
  exists extra. split; [exact Htrace | exact Hall].
Defined.

Lemma render_only_appends_headings_witness :
  renderContext (render (h1Tokens "Title") Sample.start).2 = renderContext Sample.start.
Proof.
  destruct (render (h1Tokens "Title") Sample.start) as [r s'] eqn:Hrun.
  exact (proj1 (proj2 (proj2 (render_only_appends_headings _ _ _ _ Hrun)))).
Defined.


Lemma rules_missing_token_witness :
  heading_open (h1Tokens "Title") 2 Sample.start = (Throw TypeError, Sample.start) ∧
  link_open (h1Tokens "Title") 3 Sample.start = (Throw TypeError, Sample.start).
Proof.
  destruct (rules_missing_token (h1Tokens "Title") 2 Sample.start) as [Hnext _].
  destruct (rules_missing_token (h1Tokens "Title") 3 Sample.start) as [_ Hmissing].
  split; [exact (Hnext eq_refl)|]. exact (proj2 (proj2 (Hmissing eq_refl))).
Defined.

Lemma getSlugger_needs_theme_and_page_witness :
  getSlugger (set_page None Sample.start) = (Throw TypeError, set_page None Sample.start).
Proof.
  destruct (getSlugger_needs_theme_and_page (set_page None Sample.start))
    as (_ & Hpage & _).
  exact (Hpage ∅ eq_refl eq_refl).
Defined.

Lemma heading_open_without_page_witness :
  ∃ s',
    heading_open (h1Tokens "Title") 0 (set_page None Sample.startCustom)
    = (Throw TypeError, s') ∧
    page s' = None.
Proof.
  destruct (heading_open_without_page (h1Tokens "Title") 0 _ _
              (set_page None Sample.startCustom) eq_refl eq_refl eq_refl) as [_ Hcustom].
  destruct (Hcustom eq_refl) as (s' & Hrun & Hpage & _).
  exists s'. split; [exact Hrun | exact Hpage].
Defined.

Lemma heading_close_pairs_with_heading_open_witness :
  ∃ out s' slug,
    heading_open (h1Tokens "Title") 0 Sample.start = (Ok out, s') ∧
    heading_close (h1Tokens "Title") 2 s'
    = (Ok (renderAnchorIcon (renderContext Sample.start) ("md:" +:+ slug)
           +:+ "</" +:+ "h1" +:+ ">"), s').
Proof.
  destruct (heading_close_pairs_with_heading_open (h1Tokens "Title") 0 _ _
              Sample.start Sample.emptyPage Slugger.new eq_refl eq_refl eq_refl eq_refl)
    as (out & s' & slug & Hrun & _ & _ & Hclose).
  exists out, s', slug. split; [exact Hrun|].
  exact (Hclose (h1Tokens "Title") 2 _ eq_refl).
Defined.

Lemma fallback_slugger_shared_across_pages_witness :
  ∃ out1 s1 out2 s2,
    heading_open (h1Tokens "Title") 0 Sample.startCustom = (Ok out1, s1) ∧
    heading_open (h1Tokens "Title") 0
      (set_page (Some {| model := {| reflectionId := 8; getFriendlyFullName := "Guide" |};
                         pageHeadings := [] |}) s1)
    = (Ok out2, s2).
Proof.
  destruct (fallback_slugger_shared_across_pages
              (h1Tokens "Title") 0 _ _ (h1Tokens "Title") 0 _ _
              Sample.startCustom Sample.emptyPage
              {| model := {| reflectionId := 8; getFriendlyFullName := "Guide" |};
                 pageHeadings := [] |}
              eq_refl eq_refl eq_refl eq_refl eq_refl eq_refl)
    as (out1 & s1 & out2 & s2 & Hrun1 & Hrun2 & _).
  exists out1, s1, out2, s2. split; [exact Hrun1 | exact Hrun2].
Defined.

Lemma link_open_without_href_witness :
  link_open [mkToken "link_open" "a" [("title", "Home")] "" "" "" []] 0 Sample.start
  = (Ok (renderToken [mkToken "link_open" "a" [("title", "Home")] "" "" "" []] 0,
         [mkToken "link_open" "a" [("title", "Home")] "" "" "" []]),
     Sample.start).
Proof.
  apply (link_open_without_href [mkToken "link_open" "a" [("title", "Home")] "" "" "" []] 0
           (mkToken "link_open" "a" [("title", "Home")] "" "" "" []) Sample.start eq_refl).
  left. reflexivity.
Defined.

Lemma rewriteAnchor_idempotent_witness : JS.truthy (rewriteAnchor "#") = true.
Proof. exact (proj2 (proj2 (rewriteAnchor_idempotent "#")) eq_refl). Defined.

Lemma link_open_changes_only_href_witness :
  ∃ token',
    (link_open [Sample.linkToken "#install"] 0 Sample.start).2 = Sample.start ∧
    (attrs token').*1 = ["href"].
Proof.
  destruct (link_open_changes_only_href [Sample.linkToken "#install"] 0
              (Sample.linkToken "#install") Sample.start eq_refl)
    as (token' & Hrun & _ & Hnames & _).
  exists token'. split; [by rewrite Hrun | exact Hnames].
Defined.

Lemma parseMarkdown_renders_transformed_source_witness :
  ∃ html s1,
    parseMarkdown (initialize (textListener <$> [λ t, "# " +:+ t])) (inl "Title") 0
      Sample.context Sample.start
    = (Ok html, set_renderContext None s1).
Proof.
  destruct (parseMarkdown_renders_transformed_source [λ t, "# " +:+ t] (inl "Title") 0
              Sample.context Sample.start eq_refl) as [Hok _].
  do 2 eexists. apply Hok. vm_compute. reflexivity.
Defined.

Lemma parseMarkdown_before_setupParser_witness :
  parseMarkdown (initialize (textListener <$> [])) (inl "# Title") 0 Sample.context
    (set_parser false Sample.start)
  = (Throw TypeError, set_renderContext (Some Sample.context) (set_parser false Sample.start)).
Proof.
  exact (parseMarkdown_before_setupParser [] (inl "# Title") 0 Sample.context
           (set_parser false Sample.start) eq_refl).
Defined.


End more_examples.
